(** * Output channels: a shallow embedding of [output-channel.ts]

    The development models the two classes of the output package,
    [OutputChannel] and [OutputChannelManager], as state-passing functions
    over a store of JavaScript objects, and proves the properties of the
    channel buffer and of the manager's selection, registry and scroll-lock
    bookkeeping.  It then follows the two classes into their users: the
    channel selector and the scroll-lock item of the output toolbar, and the
    sample command that posts to a channel. *)

From Stdlib Require Import ZArith.
From stdpp Require Import gmap strings list.

Set Default Proof Using "Type".
#[local] Set Warnings "-clear-no-such-hyp".

(** ** JavaScript values used by the two classes *)

(** Identity of an [OutputChannel] object (its address in [objects]). *)
Abbreviation ref := nat (only parsing).
(** Identity of a [string[]] array (its address in [arrays]). *)
Abbreviation aref := nat (only parsing).

(** [Array.prototype] operations on the contents of one array. *)
Module JSArray.
Definition push {A} (xs : list A) (x : A) : list A := xs ++ [x].

(** [xs.splice(start, deleteCount)] for a non-negative [start]: the start
    is clamped to the length, and the count to what is left after it. *)
Definition splice {A} (xs : list A) (start : nat) (deleteCount : Z) : list A :=
  let actualStart := start `min` length xs in
  let actualDeleteCount :=
    Z.to_nat (Z.min (Z.max deleteCount 0) (Z.of_nat (length xs - actualStart))) in
  take actualStart xs ++ drop (actualStart + actualDeleteCount) xs.

(** [xs.length = 0] *)
Definition truncate {A} (xs : list A) : list A := [].
End JSArray.

(** [Map<string, V>]: keys are unique and iteration follows insertion. *)
Module JSMap.
Section ops.
Context {V : Type}.

Fixpoint get (k : string) (m : list (string * V)) : option V :=
  match m with
  | [] => None
  | (k', v) :: m' => if decide (k' = k) then Some v else get k m'
  end.

Fixpoint set (k : string) (v : V) (m : list (string * V)) : list (string * V) :=
  match m with
  | [] => [(k, v)]
  | (k', v') :: m' =>
      if decide (k' = k) then (k, v) :: m' else (k', v') :: set k v m'
  end.

Fixpoint delete (k : string) (m : list (string * V)) : list (string * V) :=
  match m with
  | [] => []
  | (k', v') :: m' =>
      if decide (k' = k) then m' else (k', v') :: delete k m'
  end.

Definition keys (m : list (string * V)) : list string := m.*1.
Definition values (m : list (string * V)) : list V := m.*2.
End ops.
End JSMap.

(** ** Events and listeners *)

(** Modelled from the spec: the [Emitter] of [@theia/core] keeps the list of
    registered callbacks, [fire] invokes each synchronously in registration
    order, and disposal clears the list.  The only callbacks the two classes
    register themselves are the two closures of [registerListener]; each is
    identified by the [outputChannel] it captured. *)
Inductive VisibilityListener := ManagerOnVisibility (outputChannel : ref).
Inductive LockListener := ManagerOnLock (outputChannel : ref).

Global Instance VisibilityListener_eq_dec : EqDecision VisibilityListener :=
  ltac:(solve_decision).
Global Instance LockListener_eq_dec : EqDecision LockListener :=
  ltac:(solve_decision).

(** Every call of an emitter's [fire], in program order.  Subscribers outside
    the two classes (widgets, toolbar items) only observe these. *)
Inductive Fired :=
| ContentChange (channel : ref)
| VisibilityChange (channel : ref) (visible : bool)
| LockedChange (channel : ref) (scrollLock : bool)
| ChannelDelete (channelName : string)
| ChannelAdded (channel : ref)
| SelectedChannelChange
| ListOrSelectionChange
| ChannelLocked (channel : ref).

(** What a [DisposableCollection] of the manager can hold: the channel
    itself, and the subscriptions returned by [onVisibilityChange] and
    [onLockChange], whose disposal takes the listener off the emitter. *)
Inductive Disposable :=
| DisposeChannel (channel : ref)
| DisposeVisibilityListener (channel : ref) (l : VisibilityListener)
| DisposeLockListener (channel : ref) (l : LockListener).

(** ** The store *)

Record OutputChannel := mkOutputChannel {
  name : string;
  lines : aref;
  currentLine : option string;
  visible : bool;
  locked : bool;
  visibilityChangeEmitter : list VisibilityListener;
  lockedChangeEmitter : list LockListener
}.

Record World := mkWorld {
  (* the heap *)
  arrays : list (list string);
  objects : list OutputChannel;
  (* fields of the one OutputChannelManager *)
  channels : list (string * ref);
  selectedChannelValue : option ref;
  toDisposeOnChannelDeletion : gmap string (list Disposable);
  lockedChannels : gset string;
  (* collaborators *)
  maxChannelHistory : Z;
  storedLockedChannels : option (list string);
  windowName : string;
  console : list string;
  fired : list Fired
}.

(** The collaborators are taken as parts of the state.  [maxChannelHistory]
    is [preferences['output.maxChannelHistory']], read as an integer;
    [storedLockedChannels] is what the storage service holds under
    ['theia:output-channel-manager:lockedChannels'], [None] when it is not an
    array; [windowName] is the global [name] that [toggleScrollLock]
    interpolates into its warning; [console] collects the [console.warn]
    messages. *)

Definition set_arrays (f : list (list string) → list (list string)) (w : World) : World :=
  mkWorld (f (arrays w)) (objects w) (channels w) (selectedChannelValue w)
    (toDisposeOnChannelDeletion w) (lockedChannels w) (maxChannelHistory w)
    (storedLockedChannels w) (windowName w) (console w) (fired w).

Definition set_objects (f : list OutputChannel → list OutputChannel) (w : World) : World :=
  mkWorld (arrays w) (f (objects w)) (channels w) (selectedChannelValue w)
    (toDisposeOnChannelDeletion w) (lockedChannels w) (maxChannelHistory w)
    (storedLockedChannels w) (windowName w) (console w) (fired w).

Definition set_channels (f : list (string * ref) → list (string * ref)) (w : World) : World :=
  mkWorld (arrays w) (objects w) (f (channels w)) (selectedChannelValue w)
    (toDisposeOnChannelDeletion w) (lockedChannels w) (maxChannelHistory w)
    (storedLockedChannels w) (windowName w) (console w) (fired w).

Definition set_selectedChannelValue (c : option ref) (w : World) : World :=
  mkWorld (arrays w) (objects w) (channels w) c
    (toDisposeOnChannelDeletion w) (lockedChannels w) (maxChannelHistory w)
    (storedLockedChannels w) (windowName w) (console w) (fired w).

Definition set_toDisposeOnChannelDeletion
    (f : gmap string (list Disposable) → gmap string (list Disposable)) (w : World) : World :=
  mkWorld (arrays w) (objects w) (channels w) (selectedChannelValue w)
    (f (toDisposeOnChannelDeletion w)) (lockedChannels w) (maxChannelHistory w)
    (storedLockedChannels w) (windowName w) (console w) (fired w).

Definition set_lockedChannels (f : gset string → gset string) (w : World) : World :=
  mkWorld (arrays w) (objects w) (channels w) (selectedChannelValue w)
    (toDisposeOnChannelDeletion w) (f (lockedChannels w)) (maxChannelHistory w)
    (storedLockedChannels w) (windowName w) (console w) (fired w).

Definition set_maxChannelHistory (n : Z) (w : World) : World :=
  mkWorld (arrays w) (objects w) (channels w) (selectedChannelValue w)
    (toDisposeOnChannelDeletion w) (lockedChannels w) n
    (storedLockedChannels w) (windowName w) (console w) (fired w).

Definition set_storedLockedChannels (d : option (list string)) (w : World) : World :=
  mkWorld (arrays w) (objects w) (channels w) (selectedChannelValue w)
    (toDisposeOnChannelDeletion w) (lockedChannels w) (maxChannelHistory w)
    d (windowName w) (console w) (fired w).

(** [console.warn(msg)] *)
Definition console_warn (msg : string) (w : World) : World :=
  mkWorld (arrays w) (objects w) (channels w) (selectedChannelValue w)
    (toDisposeOnChannelDeletion w) (lockedChannels w) (maxChannelHistory w)
    (storedLockedChannels w) (windowName w) (console w ++ [msg]) (fired w).

(** Records one call of [fire]. *)
Definition emit (e : Fired) (w : World) : World :=
  mkWorld (arrays w) (objects w) (channels w) (selectedChannelValue w)
    (toDisposeOnChannelDeletion w) (lockedChannels w) (maxChannelHistory w)
    (storedLockedChannels w) (windowName w) (console w) (fired w ++ [e]).

(** Field updates of one object. *)
Definition with_currentLine (v : option string) (o : OutputChannel) : OutputChannel :=
  mkOutputChannel (name o) (lines o) v (visible o) (locked o)
    (visibilityChangeEmitter o) (lockedChangeEmitter o).
Definition with_visible (v : bool) (o : OutputChannel) : OutputChannel :=
  mkOutputChannel (name o) (lines o) (currentLine o) v (locked o)
    (visibilityChangeEmitter o) (lockedChangeEmitter o).
Definition with_locked (v : bool) (o : OutputChannel) : OutputChannel :=
  mkOutputChannel (name o) (lines o) (currentLine o) (visible o) v
    (visibilityChangeEmitter o) (lockedChangeEmitter o).
Definition with_visibilityChangeEmitter (f : list VisibilityListener → list VisibilityListener)
    (o : OutputChannel) : OutputChannel :=
  mkOutputChannel (name o) (lines o) (currentLine o) (visible o) (locked o)
    (f (visibilityChangeEmitter o)) (lockedChangeEmitter o).
Definition with_lockedChangeEmitter (f : list LockListener → list LockListener)
    (o : OutputChannel) : OutputChannel :=
  mkOutputChannel (name o) (lines o) (currentLine o) (visible o) (locked o)
    (visibilityChangeEmitter o) (f (lockedChangeEmitter o)).

Definition update_object (c : ref) (f : OutputChannel → OutputChannel) (w : World) : World :=
  set_objects (alter f c) w.
Definition update_array (a : aref) (f : list string → list string) (w : World) : World :=
  set_arrays (alter f a) w.

(** The contents of an array; a dangling reference reads as empty. *)
Definition contents (a : aref) (w : World) : list string := default [] (arrays w !! a).

(** [new Array] with the given contents. *)
Definition alloc_array (xs : list string) (w : World) : aref * World :=
  (length (arrays w), set_arrays (λ h, h ++ [xs]) w).

(** ** class OutputChannelManager: selection *)

(** [get selectedChannel()] *)
Definition selectedChannel (w : World) : option ref := selectedChannelValue w.

(** [set selectedChannel(channel)] *)
Definition set_selectedChannel (channel : option ref) (w : World) : World :=
  let w := set_selectedChannelValue channel w in
  let w := emit SelectedChannelChange w in
  emit ListOrSelectionChange w.

(** [getChannels()]: [Array.from(this.channels.values())] *)
Definition getChannels (w : World) : list ref := JSMap.values (channels w).

(** [get isVisible()] and [get isLocked()] of a channel object. *)
Definition isVisible (c : ref) (w : World) : bool :=
  match objects w !! c with Some o => visible o | None => false end.
Definition isLocked (c : ref) (w : World) : bool :=
  match objects w !! c with Some o => locked o | None => false end.

(** [getVisibleChannels()] *)
Definition getVisibleChannels (w : World) : list ref :=
  List.filter (λ channel, isVisible channel w) (getChannels w).

(** The closure subscribed to [outputChannel.onVisibilityChange] in
    [registerListener]. *)
Definition onVisibilityChange (l : VisibilityListener) (visible : bool) (w : World) : World :=
  let 'ManagerOnVisibility outputChannel := l in
  if visible then set_selectedChannel (Some outputChannel) w
  else if decide (Some outputChannel = selectedChannel w)
       then set_selectedChannel (head (getVisibleChannels w)) w
       else w.

(** The closure subscribed to [outputChannel.onLockChange] in
    [registerListener]: [() => this.channelLockedEmitter.fire(outputChannel)]. *)
Definition onLockChange (l : LockListener) (w : World) : World :=
  let 'ManagerOnLock outputChannel := l in emit (ChannelLocked outputChannel) w.

(** ** class OutputChannel *)

(** [new OutputChannel(name, preferences)] *)
Definition new_OutputChannel (name : string) (w : World) : ref * World :=
  let '(a, w) := alloc_array [] w in
  (length (objects w),
   set_objects (λ h, h ++ [mkOutputChannel name a None true false [] []]) w).

(** [append(value)] *)
Definition append (this : ref) (value : string) (w : World) : World :=
  match objects w !! this with
  | None => w
  | Some o =>
      let w :=
        match currentLine o with
        | None => update_object this (with_currentLine (Some value)) w
        | Some cur => update_object this (with_currentLine (Some (cur +:+ value))) w
        end in
      emit (ContentChange this) w
  end.

(** [appendLine(line)] *)
Definition appendLine (this : ref) (line : string) (w : World) : World :=
  match objects w !! this with
  | None => w
  | Some o =>
      let w :=
        match currentLine o with
        | Some cur =>
            let w := update_array (lines o) (λ xs, JSArray.push xs (cur +:+ line)) w in
            update_object this (with_currentLine None) w
        | None => update_array (lines o) (λ xs, JSArray.push xs line) w
        end in
      let maxChannelHistory := maxChannelHistory w in
      let len := length (contents (lines o) w) in
      let w :=
        if (Z.of_nat len >? maxChannelHistory)%Z
        then update_array (lines o)
               (λ xs, JSArray.splice xs 0 (Z.of_nat (length xs) - maxChannelHistory)) w
        else w in
      emit (ContentChange this) w
  end.

(** [clear()] *)
Definition clear (this : ref) (w : World) : World :=
  match objects w !! this with
  | None => w
  | Some o =>
      let w := update_array (lines o) JSArray.truncate w in
      let w := update_object this (with_currentLine None) w in
      emit (ContentChange this) w
  end.

(** [setVisibility(visible)]: the event is fired whether or not the flag
    changed. *)
Definition setVisibility (this : ref) (visible : bool) (w : World) : World :=
  match objects w !! this with
  | None => w
  | Some o =>
      let w := update_object this (with_visible visible) w in
      let w := emit (VisibilityChange this visible) w in
      foldl (λ w l, onVisibilityChange l visible w) w (visibilityChangeEmitter o)
  end.

(** [getLines()]: with a current line a new array is built, without one the
    [lines] array itself is returned. *)
Definition getLines (this : ref) (w : World) : option aref * World :=
  match objects w !! this with
  | None => (None, w)
  | Some o =>
      match currentLine o with
      | Some cur =>
          let '(a, w) := alloc_array (contents (lines o) w ++ [cur]) w in (Some a, w)
      | None => (Some (lines o), w)
      end
  end.

(** [toggleLocked()] *)
Definition toggleLocked (this : ref) (w : World) : World :=
  match objects w !! this with
  | None => w
  | Some o =>
      let w := update_object this (with_locked (negb (locked o))) w in
      let w := emit (LockedChange this (negb (locked o))) w in
      foldl (λ w l, onLockChange l w) w (lockedChangeEmitter o)
  end.

(** [dispose()]: the channel's emitters are disposed. *)
Definition dispose (this : ref) (w : World) : World :=
  update_object this
    (λ o, with_lockedChangeEmitter (λ _, []) (with_visibilityChangeEmitter (λ _, []) o)) w.

(** ** class OutputChannelManager *)

(** Modelled from the spec: the [DisposableCollection] of [@theia/core], the
    per-channel bundle of observation resources that [deleteChannel]
    releases.  It is the list of what was pushed; [dispose] disposes every
    element and leaves the collection empty, and an emptied collection can be
    pushed to again.  [collection_push] is [push] on the collection stored
    under [name]. *)
Definition collection_push (name : string) (d : Disposable) (w : World) : World :=
  set_toDisposeOnChannelDeletion (alter (λ ds, ds ++ [d]) name) w.

Definition dispose_one (d : Disposable) (w : World) : World :=
  match d with
  | DisposeChannel channel => dispose channel w
  | DisposeVisibilityListener channel l =>
      update_object channel
        (with_visibilityChangeEmitter (λ ls, List.remove VisibilityListener_eq_dec l ls)) w
  | DisposeLockListener channel l =>
      update_object channel
        (with_lockedChangeEmitter (λ ls, List.remove LockListener_eq_dec l ls)) w
  end.

(** [toDisposePerChannel.dispose()]: the elements are popped and disposed
    from the last one pushed, and the collection is left empty. *)
Definition collection_dispose (name : string) (w : World) : World :=
  match toDisposeOnChannelDeletion w !! name with
  | None => w
  | Some ds =>
      let w := foldr dispose_one w ds in
      set_toDisposeOnChannelDeletion (<[name := []]>) w
  end.

(** [registerListener(outputChannel)] *)
Definition registerListener (outputChannel : ref) (w : World) : World :=
  match objects w !! outputChannel with
  | None => w
  | Some o =>
      let name := name o in
      let w :=
        match selectedChannel w with
        | None => set_selectedChannel (Some outputChannel) w
        | Some _ => w
        end in
      let w :=
        match toDisposeOnChannelDeletion w !! name with
        | None => set_toDisposeOnChannelDeletion (<[name := []]>) w
        | Some _ => w
        end in
      let w := collection_push name (DisposeChannel outputChannel) w in
      let w :=
        update_object outputChannel
          (with_visibilityChangeEmitter (λ ls, ls ++ [ManagerOnVisibility outputChannel])) w in
      let w :=
        collection_push name
          (DisposeVisibilityListener outputChannel (ManagerOnVisibility outputChannel)) w in
      let w :=
        update_object outputChannel
          (with_lockedChangeEmitter (λ ls, ls ++ [ManagerOnLock outputChannel])) w in
      let w :=
        collection_push name
          (DisposeLockListener outputChannel (ManagerOnLock outputChannel)) w in
      if decide (name ∈ lockedChannels w)
      then if negb (isLocked outputChannel w) then toggleLocked outputChannel w else w
      else w
  end.

(** [channelAddedEmitter.fire(channel)], with the listener [init] subscribed. *)
Definition fire_channelAdded (channel : ref) (w : World) : World :=
  let w := emit (ChannelAdded channel) w in
  let w := emit ListOrSelectionChange w in
  registerListener channel w.

(** [channelDeleteEmitter.fire({ channelName })], with the listener [init]
    subscribed. *)
Definition fire_channelDelete (channelName : string) (w : World) : World :=
  let w := emit (ChannelDelete channelName) w in
  let w := emit ListOrSelectionChange w in
  match selectedChannel w with
  | Some selected =>
      if decide (name <$> objects w !! selected = Some channelName)
      then set_selectedChannel (head (getVisibleChannels w)) w
      else w
  | None => w
  end.

(** [getChannel(name)] *)
Definition getChannel (name : string) (w : World) : ref * World :=
  match JSMap.get name (channels w) with
  | Some existing => (existing, w)
  | None =>
      let '(channel, w) := new_OutputChannel name w in
      let w := set_channels (JSMap.set name channel) w in
      let w := fire_channelAdded channel w in
      (channel, w)
  end.

(** [deleteChannel(name)] *)
Definition deleteChannel (name : string) (w : World) : World :=
  match JSMap.get name (channels w) with
  | None =>
      console_warn
        ("Could not delete channel '" +:+ name +:+ "'. The channel does not exist.") w
  | Some existing =>
      let w := set_channels (JSMap.delete name) w in
      let w := collection_dispose name w in
      fire_channelDelete name w
  end.

(** [toggleScrollLock(channel = this.selectedChannel)]: the default applies
    when the argument is left out or is [undefined]. *)
Definition toggleScrollLock (arg : option ref) (w : World) : World :=
  let channel := match arg with Some c => Some c | None => selectedChannel w end in
  match channel with
  | None => console_warn ("Channel '" +:+ windowName w +:+ "' does not exist.") w
  | Some channel => toggleLocked channel w
  end.

(** [onStart()], from the point where the stored data has arrived. *)
Definition onStart (w : World) : World :=
  match storedLockedChannels w with
  | Some lockedChannels =>
      foldl (λ w channelName, set_lockedChannels (λ s, {[channelName]} ∪ s) w) w lockedChannels
  | None => w
  end.

(** [onStop()] *)
Definition onStop (w : World) : World :=
  let lockedChannels :=
    List.map (λ c, default ""%string (name <$> objects w !! c))
      (List.filter (λ c, isLocked c w) (getChannels w)) in
  set_storedLockedChannels (Some lockedChannels) w.

(** The manager after construction and [init()]: no channel, no selection.
    The preference, the stored data and the global [name] are whatever the
    environment holds. *)
Definition init (maxHistory : Z) (stored : option (list string)) (wname : string) : World :=
  mkWorld [] [] [] None ∅ ∅ maxHistory stored wname [] [].

(** ** Calls of a client *)

(** A client's [append] and [appendLine] calls on one channel. *)
Inductive ChannelCall :=
| CallAppend (value : string)
| CallAppendLine (line : string).

Definition call_channel (this : ref) (c : ChannelCall) (w : World) : World :=
  match c with
  | CallAppend value => append this value w
  | CallAppendLine line => appendLine this line w
  end.

Definition call_channel_all (this : ref) (cs : list ChannelCall) (w : World) : World :=
  foldl (λ w c, call_channel this c w) w cs.

(** What a caller reads from the array [getLines()] hands out. *)
Definition lines_read (this : ref) (w : World) : list string :=
  match getLines this w with
  | (Some a, w') => contents a w'
  | (None, _) => []
  end.

(** The lines a sequence of calls completes, in call order, following the
    description of [appendLine]: the accumulator, if any, joined with the
    argument, else the argument alone; and the accumulator left at the end. *)
Fixpoint completed_lines (acc : option string) (cs : list ChannelCall) : list string :=
  match cs with
  | [] => []
  | CallAppend value :: cs =>
      completed_lines (Some (match acc with None => value | Some cur => cur +:+ value end)) cs
  | CallAppendLine line :: cs =>
      (match acc with None => line | Some cur => cur +:+ line end) :: completed_lines None cs
  end.

Fixpoint trailing (acc : option string) (cs : list ChannelCall) : option string :=
  match cs with
  | [] => acc
  | CallAppend value :: cs =>
      trailing (Some (match acc with None => value | Some cur => cur +:+ value end)) cs
  | CallAppendLine line :: cs => trailing None cs
  end.

(** The last [n] elements of a list. *)
Definition last_n {A} (n : nat) (xs : list A) : list A := drop (length xs - n) xs.

(** The buffer of a channel: the contents of its [lines] array and its
    [currentLine]. *)
Definition view (this : ref) (w : World) : option (list string * option string) :=
  o ← objects w !! this;
  xs ← arrays w !! lines o;
  Some (xs, currentLine o).

(** What a client does with the manager, the channels and the arrays it was
    handed, while the manager is alive.  [SelectChannel] is the setter of
    [selectedChannel], [Start] and [Stop] are the two lifecycle hooks,
    [SetPreference] is the user editing the history setting, and [PushOnto]
    is [array.push(x)] on an array obtained from [getLines()].  [dispose()]
    of the manager ends its life and is not among the calls; [dispose()] of
    a channel, called by the client, is the separate step of
    [reachable_client] below. *)
Inductive Call :=
| GetChannel (name : string)
| DeleteChannel (name : string)
| SelectChannel (channel : option ref)
| ToggleScrollLock (channel : option ref)
| Start
| Stop
| OnChannel (this : ref) (c : ChannelCall)
| ClearChannel (this : ref)
| SetVisibility (this : ref) (visible : bool)
| ReadLines (this : ref)
| ToggleLocked (this : ref)
| SetPreference (maxHistory : Z)
| PushOnto (a : aref) (x : string).

Definition call (c : Call) (w : World) : World :=
  match c with
  | GetChannel name => (getChannel name w).2
  | DeleteChannel name => deleteChannel name w
  | SelectChannel channel => set_selectedChannel channel w
  | ToggleScrollLock channel => toggleScrollLock channel w
  | Start => onStart w
  | Stop => onStop w
  | OnChannel this c => call_channel this c w
  | ClearChannel this => clear this w
  | SetVisibility this visible => setVisibility this visible w
  | ReadLines this => (getLines this w).2
  | ToggleLocked this => toggleLocked this w
  | SetPreference maxHistory => set_maxChannelHistory maxHistory w
  | PushOnto a x => update_array a (λ xs, JSArray.push xs x) w
  end.

Definition call_all (cs : list Call) (w : World) : World := foldl (λ w c, call c w) w cs.

(** The setter is given a channel of the registry, as the channel selector of
    the toolbar does with [getChannel(channelName)], or [undefined]. *)
Definition selects_registered (w : World) (c : Call) : Prop :=
  match c with
  | SelectChannel (Some channel) => channel ∈ getChannels w
  | _ => True
  end.

(** The states of the manager between [init()] and [dispose()], under any
    calls. *)
Inductive reachable_any : World → Prop :=
| reachable_any_init maxHistory stored wname :
    reachable_any (init maxHistory stored wname)
| reachable_any_call w c :
    reachable_any w → reachable_any (call c w).

(** The same, with the setter only given channels of the registry. *)
Inductive reachable : World → Prop :=
| reachable_init maxHistory stored wname :
    reachable (init maxHistory stored wname)
| reachable_call w c :
    reachable w → selects_registered w c → reachable (call c w).

(** The selection is absent or a channel of the registry. *)
Definition selection_registered (w : World) : Prop :=
  ∀ c, selectedChannel w = Some c → c ∈ getChannels w.

(** The wiring [registerListener] sets up for the channel [c] stored under the
    key [k]. *)
Definition wired (w : World) (k : string) (c : ref) : Prop :=
  ∃ o, objects w !! c = Some o ∧ name o = k ∧
       visibilityChangeEmitter o = [ManagerOnVisibility c] ∧
       lockedChangeEmitter o = [ManagerOnLock c] ∧
       toDisposeOnChannelDeletion w !! k =
         Some [DisposeChannel c;
               DisposeVisibilityListener c (ManagerOnVisibility c);
               DisposeLockListener c (ManagerOnLock c)].

(** The invariant of the manager's bookkeeping: the keys of the registry are
    distinct, every channel of the registry is wired under its own name, an
    object outside the registry has no listener left, and a name outside the
    registry has nothing left to dispose. *)
Record wiring_inv (w : World) : Prop := {
  inv_keys : NoDup (JSMap.keys (channels w));
  inv_wired : ∀ k c, (k, c) ∈ channels w → wired w k c;
  inv_retired : ∀ c o, objects w !! c = Some o → c ∉ getChannels w →
      visibilityChangeEmitter o = [] ∧ lockedChangeEmitter o = [];
  inv_disposed : ∀ k, k ∉ JSMap.keys (channels w) →
      toDisposeOnChannelDeletion w !! k = None ∨
      toDisposeOnChannelDeletion w !! k = Some []
}.

Definition manager_inv (w : World) : Prop := wiring_inv w ∧ selection_registered w.

(** What the invariant reads of an object: its name and the listeners of its
    two emitters. *)
Definition wiring_of (o : OutputChannel) : string * list VisibilityListener * list LockListener :=
  (name o, visibilityChangeEmitter o, lockedChangeEmitter o).

(** Two states with the same registry, the same collections and the same
    wiring of every object. *)
Definition same_wiring (w w' : World) : Prop :=
  channels w' = channels w ∧
  toDisposeOnChannelDeletion w' = toDisposeOnChannelDeletion w ∧
  ∀ c, wiring_of <$> objects w' !! c = wiring_of <$> objects w !! c.

(** ** A client that also disposes channels *)

(** [dispose()] of a channel is public, and a client that was handed a
    channel can call it while the channel is still in the registry.  These
    are the states of the manager under any calls and any such disposals; the
    index lists the channels the client has disposed. *)
Inductive reachable_client : list ref → World → Prop :=
| reachable_client_init maxHistory stored wname :
    reachable_client [] (init maxHistory stored wname)
| reachable_client_call D w c :
    reachable_client D w → reachable_client D (call c w)
| reachable_client_dispose D w this :
    reachable_client D w → this < length (objects w) →
    reachable_client (this :: D) (dispose this w).

(** The wiring of the channel [c] stored under the key [k], when the client
    has disposed the channels of [D]: the manager's two listeners are on the
    emitters of [c] unless [c] was disposed, and the collection of the name
    holds the three disposables either way. *)
Definition client_wired (D : list ref) (w : World) (k : string) (c : ref) : Prop :=
  ∃ o, objects w !! c = Some o ∧ name o = k ∧
       visibilityChangeEmitter o = (if decide (c ∈ D) then [] else [ManagerOnVisibility c]) ∧
       lockedChangeEmitter o = (if decide (c ∈ D) then [] else [ManagerOnLock c]) ∧
       toDisposeOnChannelDeletion w !! k =
         Some [DisposeChannel c;
               DisposeVisibilityListener c (ManagerOnVisibility c);
               DisposeLockListener c (ManagerOnLock c)].

(** The invariant of the manager's bookkeeping under such a client. *)
Record client_inv (D : list ref) (w : World) : Prop := {
  cinv_keys : NoDup (JSMap.keys (channels w));
  cinv_wired : ∀ k c, (k, c) ∈ channels w → client_wired D w k c;
  cinv_retired : ∀ c o, objects w !! c = Some o → c ∉ getChannels w →
      visibilityChangeEmitter o = [] ∧ lockedChangeEmitter o = [];
  cinv_disposed : ∀ k, k ∉ JSMap.keys (channels w) →
      toDisposeOnChannelDeletion w !! k = None ∨
      toDisposeOnChannelDeletion w !! k = Some [];
  cinv_held : ∀ c, c ∈ D → c < length (objects w)
}.

(** The state in which [onStart] has also recorded the name [N]. *)
Definition record_name (N : string) (w : World) : World :=
  set_lockedChannels (λ s, {[N]} ∪ s) w.

(** The call constructs the channel [N]: it is [getChannel(N)] and the
    registry has no channel under [N]. *)
Definition constructs (N : string) (w : World) (c : Call) : Prop :=
  c = GetChannel N ∧ JSMap.get N (channels w) = None.

(** A run of calls, from [w], in which the channel [N] is never constructed. *)
Fixpoint never_constructs (N : string) (cs : list Call) (w : World) : Prop :=
  match cs with
  | [] => True
  | c :: cs => ¬ constructs N w c ∧ never_constructs N cs (call c w)
  end.

(** A state with another record of fired events. *)
Definition with_fired (evs : list Fired) (w : World) : World :=
  mkWorld (arrays w) (objects w) (channels w) (selectedChannelValue w)
    (toDisposeOnChannelDeletion w) (lockedChannels w) (maxChannelHistory w)
    (storedLockedChannels w) (windowName w) (console w) evs.

(** Reduction of the field accesses and updates of a state. *)
Ltac wsimpl :=
  cbn [arrays objects channels selectedChannelValue toDisposeOnChannelDeletion
       lockedChannels maxChannelHistory storedLockedChannels windowName console fired
       name lines currentLine visible locked visibilityChangeEmitter lockedChangeEmitter
       with_currentLine with_visible with_locked with_visibilityChangeEmitter
       with_lockedChangeEmitter foldl fst snd negb] in *.

Ltac wcbv :=
  cbv [collection_push update_object set_toDisposeOnChannelDeletion set_objects
       set_selectedChannel set_selectedChannelValue emit selectedChannel isLocked
       toggleLocked onLockChange
       arrays objects channels selectedChannelValue toDisposeOnChannelDeletion
       lockedChannels maxChannelHistory storedLockedChannels windowName console fired
       name lines currentLine visible locked visibilityChangeEmitter lockedChangeEmitter
       with_currentLine with_visible with_locked with_visibilityChangeEmitter
       with_lockedChangeEmitter].

(** ** Further notions *)

(** What no call other than [setVisibility], creation and deletion changes of
    an object: its name, its [lines] array, its visibility flag and the
    listeners of its emitters. *)
Definition shape_of (o : OutputChannel) :
    string * aref * bool * list VisibilityListener * list LockListener :=
  (name o, lines o, visible o, visibilityChangeEmitter o, lockedChangeEmitter o).

(** Two states whose objects have the same shape, the second with at least
    the arrays of the first. *)
Definition same_shape (w w' : World) : Prop :=
  (∀ i, shape_of <$> objects w' !! i = shape_of <$> objects w !! i) ∧
  length (arrays w) ≤ length (arrays w').

(** The selection is a visible channel of the registry, and there is one
    whenever a channel of the registry is visible. *)
Definition selection_shown (w : World) : Prop :=
  match selectedChannel w with
  | Some c => c ∈ getVisibleChannels w
  | None => getVisibleChannels w = []
  end.

(** A client that keeps the selection among the visible channels: the
    setter of [selectedChannel] is only given a visible channel of the
    registry, or [undefined] when none is visible, and [setVisibility] is not
    called on a channel of the registry after the client has disposed it. *)
Definition keeps_shown (D : list ref) (w : World) (c : Call) : Prop :=
  match c with
  | SelectChannel (Some channel) => channel ∈ getVisibleChannels w
  | SelectChannel None => getVisibleChannels w = []
  | SetVisibility this _ => this ∈ getChannels w → this ∉ D
  | _ => True
  end.

(** The states reached by such a client; the index lists the channels it
    has disposed. *)
Inductive reachable_shown : list ref → World → Prop :=
| reachable_shown_init maxHistory stored wname :
    reachable_shown [] (init maxHistory stored wname)
| reachable_shown_call D w c :
    reachable_shown D w → keeps_shown D w c → reachable_shown D (call c w)
| reachable_shown_dispose D w this :
    reachable_shown D w → this < length (objects w) →
    reachable_shown (this :: D) (dispose this w).

(** Every channel object has a [lines] array of its own. *)
Definition own_lines (w : World) : Prop :=
  (∀ c o, objects w !! c = Some o → lines o < length (arrays w)) ∧
  (∀ c c' o o', objects w !! c = Some o → objects w !! c' = Some o' →
     lines o = lines o' → c = c').

(** ** The toolbar of the output view ([output-toolbar-contribution.tsx]) *)

(** [this.NONE] *)
Definition NONE : string := "<no channels>".

(** [channel.name] *)
Definition name_of (c : ref) (w : World) : string :=
  default ""%string (name <$> objects w !! c).

(** [renderChannelSelector()]: the values of the [<option>] elements, which
    are also their keys, and the value of the [<select>]. *)
Definition renderChannelSelector (w : World) : list string * string :=
  let channelOptionElements :=
    List.map (λ channel, name_of channel w) (getVisibleChannels w) in
  let channelOptionElements :=
    if decide (length channelOptionElements = 0)
    then channelOptionElements ++ [NONE]
    else channelOptionElements in
  (channelOptionElements,
   match selectedChannel w with
   | Some selected => name_of selected w
   | None => NONE
   end).

(** [changeChannel(event)], with [channelName] the [event.target.value]. *)
Definition changeChannel (channelName : string) (w : World) : World :=
  if decide (channelName ≠ NONE)
  then let '(channel, w) := getChannel channelName w in
       set_selectedChannel (Some channel) w
  else w.

(** ** The sample command ([api-samples-frontend-module.ts]) *)

(** The callback the command hands to [window.setInterval]; [now] is
    [Date.now()] as the template string prints it. *)
Definition sample_tick (channelName now : string) (w : World) : World :=
  let '(channel, w) := getChannel channelName w in
  appendLine channel (channelName +:+ ": " +:+ now) w.

(** ** [ScrollLockToolbarItem] *)

(** [xs.indexOf(x)] *)
Fixpoint indexOf (xs : list string) (x : string) : Z :=
  match xs with
  | [] => -1
  | y :: xs =>
      if decide (y = x) then 0
      else let index := indexOf xs x in
           if decide (index = -1) then -1 else 1 + index
  end%Z.

(** The constructor: the [lockedChannels] of the initial state. *)
Definition ScrollLockToolbarItem_new (w : World) : list string :=
  List.map (λ channel, name_of channel w)
    (List.filter (λ channel, isLocked channel w) (getChannels w)).

(** The listener [componentDidMount] subscribes to [manager.onLockChange].
    It is given the channel the manager fires, reads [name] and [isLocked]
    off it, and returns the [lockedChannels] it sets as the new state. *)
Definition item_onLockChange (channel : ref) (state_lockedChannels : list string) (w : World) :
    list string * World :=
  let channelName := name_of channel w in
  let hasScrollLock := isLocked channel w in
  let lockedChannels := state_lockedChannels in
  if hasScrollLock then (JSArray.push lockedChannels channelName, w)
  else
    let index := indexOf lockedChannels channelName in
    if decide (index = -1)%Z
    then (lockedChannels,
          console_warn ("Could not unlock channel '" +:+ channelName +:+ "'. It was not locked.") w)
    else (JSArray.splice lockedChannels (Z.to_nat index) 1, w).

(** * Proofs *)

(** ** The model on small inputs *)

Example splice_removes_oldest :
  JSArray.splice ["a"; "b"; "c"; "d"]%string 0 1 = ["b"; "c"; "d"]%string.
Proof. reflexivity. Qed.

Example splice_clamps_count :
  JSArray.splice ["a"; "b"]%string 0 5 = [] ∧
  JSArray.splice ["a"; "b"]%string 0 (-1) = ["a"; "b"]%string.
Proof. split; reflexivity. Qed.

Example jsmap_keeps_insertion_order :
  JSMap.values (JSMap.set "a" 2 (JSMap.delete "a" (JSMap.set "b" 1 (JSMap.set "a" 0 []))))
  = [1; 2].
Proof. reflexivity. Qed.

Example first_channel_is_selected :
  let w := (getChannel "out" (init 1000 None "")).2 in
  selectedChannel w = Some 0 ∧
  fired w = [ChannelAdded 0; ListOrSelectionChange; SelectedChannelChange;
             ListOrSelectionChange].
Proof. split; reflexivity. Qed.

Example hidden_selection_falls_back :
  let w := call_all [GetChannel "one"; GetChannel "two"; SetVisibility 0 false]
             (init 1000 None "") in
  selectedChannel w = Some 1 ∧ getVisibleChannels w = [1].
Proof. split; reflexivity. Qed.

Example negative_history_keeps_nothing :
  lines_read 0 (appendLine 0 "a" (new_OutputChannel "out" (init (-1) None "")).2) = [].
Proof. reflexivity. Qed.

(** ** Arrays *)

Lemma splice_front {A} (xs : list A) (m : Z) :
  (m < Z.of_nat (length xs))%Z →
  JSArray.splice xs 0 (Z.of_nat (length xs) - m) = last_n (Z.to_nat m) xs.
Proof.
  intros Hlt. unfold JSArray.splice, last_n. simpl.
  f_equal. rewrite Nat.sub_0_r. lia.
Qed.

Lemma last_n_all {A} (n : nat) (xs : list A) : length xs ≤ n → last_n n xs = xs.
Proof.
  intros Hle. unfold last_n. replace (length xs - n) with 0 by lia. done.
Qed.

Lemma length_last_n {A} (n : nat) (xs : list A) : length (last_n n xs) = length xs `min` n.
Proof. unfold last_n. rewrite length_drop. lia. Qed.

Lemma last_n_app_last_n {A} (n : nat) (xs ys : list A) :
  last_n n (last_n n xs ++ ys) = last_n n (xs ++ ys).
Proof.
  destruct (decide (length xs ≤ n)) as [Hle|Hgt].
  { by rewrite (last_n_all n xs). }
  unfold last_n at 1 3. rewrite !length_app, length_last_n.
  unfold last_n.
  replace (length xs + length ys - n) with ((length xs - n) + length ys) by lia.
  rewrite <- drop_drop, (drop_app_le xs ys) by lia.
  f_equal. lia.
Qed.

Lemma lookup_alloc {A} (h : list A) (x : A) : (h ++ [x]) !! length h = Some x.
Proof. by rewrite list_lookup_middle. Qed.

(** ** The buffer of one channel *)

Lemma view_Some this w xs cur :
  view this w = Some (xs, cur) ↔
  ∃ o, objects w !! this = Some o ∧ arrays w !! lines o = Some xs ∧ currentLine o = cur.
Proof.
  unfold view. split.
  - destruct (objects w !! this) as [o|]; simpl; [|done].
    destruct (arrays w !! lines o) as [ys|] eqn:Ha; simpl; [|done].
    intros [= <- <-]. by exists o.
  - intros (o & -> & Ha & <-). simpl. by rewrite Ha.
Qed.

Lemma view_new_OutputChannel name w :
  view (new_OutputChannel name w).1 (new_OutputChannel name w).2 = Some ([], None).
Proof.
  unfold new_OutputChannel, view. simpl.
  rewrite lookup_alloc. simpl. by rewrite lookup_alloc.
Qed.

Lemma append_view this value w xs cur :
  view this w = Some (xs, cur) →
  view this (append this value w) =
    Some (xs, Some (match cur with None => value | Some c => c +:+ value end)).
Proof.
  intros (o & Ho & Ha & <-)%view_Some. apply view_Some.
  unfold append. rewrite Ho.
  destruct (currentLine o) as [c|]; simpl;
    (eexists; split_and!; [by rewrite list_lookup_alter_eq, Ho|done..]).
Qed.

Lemma appendLine_view this line w xs cur :
  view this w = Some (xs, cur) →
  view this (appendLine this line w) =
    Some (last_n (Z.to_nat (maxChannelHistory w))
            (xs ++ [match cur with None => line | Some c => c +:+ line end]), None).
Proof.
  intros (o & Ho & Ha & <-)%view_Some. apply view_Some.
  unfold appendLine. rewrite Ho.
  set (done := match currentLine o with None => line | Some c => c +:+ line end).
  set (w1 := match currentLine o with
             | Some cur => _
             | None => _
             end).
  assert (Hw1 : objects w1 !! this = Some (with_currentLine None o) ∧
                arrays w1 = alter (λ xs, JSArray.push xs done) (lines o) (arrays w) ∧
                maxChannelHistory w1 = maxChannelHistory w).
  { subst w1 done. destruct o as [n a [c|] v l ve le]; simpl in *.
    - by rewrite list_lookup_alter_eq, Ho.
    - by rewrite Ho. }
  destruct Hw1 as (Ho1 & Ha1 & Hm1).
  assert (Hc1 : contents (lines o) w1 = xs ++ [done]).
  { unfold contents. by rewrite Ha1, list_lookup_alter_eq, Ha. }
  rewrite Hc1, Hm1. clearbody w1.
  exists (with_currentLine None o). simpl.
  destruct (Z.gtb_spec (Z.of_nat (length (xs ++ [done]))) (maxChannelHistory w)) as [Hgt|Hle];
    simpl; rewrite Ho1; split_and!; try done.
  - rewrite list_lookup_alter_eq, Ha1, list_lookup_alter_eq, Ha. simpl.
    unfold JSArray.push. by rewrite splice_front by lia.
  - rewrite Ha1, list_lookup_alter_eq, Ha. simpl.
    unfold JSArray.push. rewrite last_n_all; [done|lia].
Qed.

Lemma append_maxChannelHistory this value w :
  maxChannelHistory (append this value w) = maxChannelHistory w.
Proof.
  unfold append. destruct (objects w !! this) as [o|]; [|done].
  by destruct (currentLine o).
Qed.

Lemma appendLine_maxChannelHistory this line w :
  maxChannelHistory (appendLine this line w) = maxChannelHistory w.
Proof.
  unfold appendLine. destruct (objects w !! this) as [o|]; [|done].
  destruct (currentLine o); simpl; by case_match.
Qed.

Lemma call_channel_all_maxChannelHistory this cs w :
  maxChannelHistory (call_channel_all this cs w) = maxChannelHistory w.
Proof.
  revert w. induction cs as [|[value|line] cs IH]; intros w; simpl; [done|..];
    rewrite IH; [apply append_maxChannelHistory|apply appendLine_maxChannelHistory].
Qed.

(** The buffer after any calls, from a buffer within the bound. *)
Lemma call_channel_all_view this cs w xs cur :
  view this w = Some (xs, cur) →
  length xs ≤ Z.to_nat (maxChannelHistory w) →
  view this (call_channel_all this cs w) =
    Some (last_n (Z.to_nat (maxChannelHistory w)) (xs ++ completed_lines cur cs),
          trailing cur cs).
Proof.
  revert w xs cur. induction cs as [|[value|line] cs IH]; intros w xs cur Hv Hlen; simpl.
  - rewrite app_nil_r, last_n_all; done.
  - erewrite IH; [|by apply append_view|by rewrite append_maxChannelHistory].
    by rewrite append_maxChannelHistory.
  - erewrite IH; [|by apply appendLine_view|]; rewrite appendLine_maxChannelHistory.
    + by rewrite last_n_app_last_n, <- app_assoc.
    + rewrite length_last_n. lia.
Qed.

Lemma lines_read_view this w xs cur :
  view this w = Some (xs, cur) → lines_read this w = xs ++ option_list cur.
Proof.
  intros (o & Ho & Ha & <-)%view_Some. unfold lines_read, getLines. rewrite Ho.
  destruct (currentLine o) as [c|]; simpl.
  - unfold contents at 1. simpl. rewrite lookup_alloc. simpl.
    unfold contents. by rewrite Ha.
  - unfold contents. by rewrite Ha, app_nil_r.
Qed.

(** What [getLines()] returns after any calls on a new channel. *)
Lemma lines_read_new_channel name w cs :
  lines_read (new_OutputChannel name w).1
    (call_channel_all (new_OutputChannel name w).1 cs (new_OutputChannel name w).2) =
  last_n (Z.to_nat (maxChannelHistory w)) (completed_lines None cs)
  ++ option_list (trailing None cs).
Proof.
  apply lines_read_view.
  rewrite (call_channel_all_view _ cs _ [] None).
  - done.
  - apply view_new_OutputChannel.
  - simpl. lia.
Qed.

(** ** The channel buffer: C1, C2, C3 *)

(** C1, as stated, fails: with a history of one line, two [appendLine] calls
    complete the lines "a" and "b", and [getLines()] returns only "b" and not
    the list of completed lines. *)
Lemma C1_counterexample :
  let c := (new_OutputChannel "out" (init 1 None "")).1 in
  let w0 := (new_OutputChannel "out" (init 1 None "")).2 in
  let cs := [CallAppendLine "a"; CallAppendLine "b"] in
  lines_read c (call_channel_all c cs w0) = ["b"]%string ∧
  lines_read c (call_channel_all c cs w0) ≠
    completed_lines None cs ++ option_list (trailing None cs).
Proof. split; [reflexivity|]. vm_compute. discriminate. Qed.

(** C1, amended: for every sequence of [append]/[appendLine] calls on a new
    channel, [getLines()] returns the last [maxChannelHistory] completed
    lines in call order, followed by the trailing unterminated [append]
    content if there is any; when no more than [maxChannelHistory] lines were
    completed these are all the completed lines, and [append("Hel")],
    [append("lo")], [appendLine("!")] gives ["Hello!"] under any history of
    at least one line. *)
Theorem C1_getLines_call_order (w : World) (name : string) (cs : list ChannelCall) :
  let c := (new_OutputChannel name w).1 in
  let w0 := (new_OutputChannel name w).2 in
  lines_read c (call_channel_all c cs w0) =
    last_n (Z.to_nat (maxChannelHistory w)) (completed_lines None cs)
    ++ option_list (trailing None cs) ∧
  ((Z.of_nat (length (completed_lines None cs)) ≤ maxChannelHistory w)%Z →
   lines_read c (call_channel_all c cs w0) =
     completed_lines None cs ++ option_list (trailing None cs)) ∧
  ((1 ≤ maxChannelHistory w)%Z →
   lines_read c
     (call_channel_all c [CallAppend "Hel"; CallAppend "lo"; CallAppendLine "!"] w0) =
     ["Hello!"]%string).
Proof.
  intros c w0. split_and!.
  - apply lines_read_new_channel.
  - intros Hle. subst c w0. rewrite lines_read_new_channel, last_n_all; [done|lia].
  - intros Hle. subst c w0. rewrite lines_read_new_channel. simpl.
    rewrite last_n_all; [done|simpl; lia].
Qed.

Lemma C1_getLines_call_order_witness :
  lines_read 0
    (call_channel_all 0 [CallAppend "Hel"; CallAppend "lo"; CallAppendLine "!"]
       (new_OutputChannel "out" (init 1000 None "")).2) = ["Hello!"]%string.
Proof.
  apply (C1_getLines_call_order (init 1000 None "") "out" []). simpl. lia.
Defined.

(** C2: after an [appendLine] call the channel stores the newest lines of its
    old history followed by the line just completed, as many as the value of
    [maxChannelHistory] the preference holds at the call allows: the lines
    removed are the oldest ones, and when that value is not negative the
    number of stored lines is at most that value; with a history of 3,
    [appendLine] of "a", "b", "c", "d" leaves [getLines()] = ["b","c","d"]. *)
Theorem C2_appendLine_bounded (w : World) (this : ref) (line : string)
    (xs : list string) (cur : option string) :
  view this w = Some (xs, cur) →
  (∃ removed kept,
      view this (appendLine this line w) = Some (kept, None) ∧
      xs ++ [match cur with None => line | Some c => c +:+ line end] = removed ++ kept ∧
      length kept = (length xs + 1) `min` Z.to_nat (maxChannelHistory w) ∧
      ((0 ≤ maxChannelHistory w)%Z →
       (Z.of_nat (length kept) ≤ maxChannelHistory w)%Z)) ∧
  (∀ name,
      let w3 := set_maxChannelHistory 3 w in
      let c := (new_OutputChannel name w3).1 in
      lines_read c
        (call_channel_all c
           [CallAppendLine "a"; CallAppendLine "b"; CallAppendLine "c"; CallAppendLine "d"]
           (new_OutputChannel name w3).2) = ["b"; "c"; "d"]%string).
Proof.
  intros Hv. split.
  - set (ys := xs ++ [match cur with None => line | Some c => c +:+ line end]).
    exists (take (length ys - Z.to_nat (maxChannelHistory w)) ys),
      (last_n (Z.to_nat (maxChannelHistory w)) ys).
    split_and!.
    + by apply appendLine_view.
    + unfold last_n. by rewrite take_drop.
    + rewrite length_last_n. subst ys. rewrite length_app. simpl. lia.
    + intros Hmax. rewrite length_last_n. lia.
  - intros name w3 c. subst c. by rewrite lines_read_new_channel.
Qed.

Lemma C2_appendLine_bounded_witness :
  ∃ removed kept,
    view 0 (appendLine 0 "d" (call_channel_all 0
              [CallAppendLine "a"; CallAppendLine "b"; CallAppendLine "c"]
              (new_OutputChannel "out" (init 3 None "")).2)) = Some (kept, None) ∧
    ["a"; "b"; "c"] ++ ["d"] = removed ++ kept ∧
    length kept = (3 + 1) `min` Z.to_nat 3 ∧
    (Z.of_nat (length kept) ≤ 3)%Z.
Proof.
  destruct (C2_appendLine_bounded
              (call_channel_all 0
                 [CallAppendLine "a"; CallAppendLine "b"; CallAppendLine "c"]
                 (new_OutputChannel "out" (init 3 None "")).2)
              0 "d" ["a"; "b"; "c"]%string None)
    as [(removed & kept & Hv & Hs & Hl & Hb) _].
  - reflexivity.
  - exists removed, kept. split_and!; [exact Hv|exact Hs|exact Hl|].
    apply Hb. simpl. lia.
Defined.

(** C3, as stated, fails: without a current line [getLines()] returns the
    [lines] array itself, so a [push] on the returned array changes the lines
    the channel stores. *)
Lemma C3_counterexample :
  let w := appendLine 0 "a" (getChannel "out" (init 1000 None "")).2 in
  ∃ a, (getLines 0 w).1 = Some a ∧
       view 0 (getLines 0 w).2 = Some (["a"]%string, None) ∧
       view 0 (call (PushOnto a "x") (getLines 0 w).2) = Some (["a"; "x"]%string, None) ∧
       view 0 (call (PushOnto a "x") (getLines 0 w).2) ≠ view 0 (getLines 0 w).2.
Proof. exists 0. split_and!; [reflexivity..|]. vm_compute. discriminate. Qed.

(** C3, amended: [getLines()] returns the completed lines with the
    in-progress accumulator appended as the last element when one is present,
    and exactly the completed lines otherwise; the call changes nothing the
    channel or the manager stores (at most a new array is allocated); with an
    accumulator the returned array is a new one, and a [push] on it leaves
    the channel's lines as they were; without one it is the channel's own
    [lines] array, and a [push] on it adds to the channel's lines. *)
Theorem C3_getLines_snapshot (w : World) (this : ref)
    (xs : list string) (cur : option string) :
  view this w = Some (xs, cur) →
  ∃ a, (getLines this w).1 = Some a ∧
       contents a (getLines this w).2 = xs ++ option_list cur ∧
       (∃ fresh, (getLines this w).2 = set_arrays (λ h, h ++ fresh) w) ∧
       view this (getLines this w).2 = Some (xs, cur) ∧
       ∀ x, view this (call (PushOnto a x) (getLines this w).2) =
            Some (match cur with Some _ => xs | None => xs ++ [x] end, cur).
Proof.
  intros Hv. pose proof Hv as (o & Ho & Ha & <-)%view_Some.
  pose proof (lookup_lt_Some _ _ _ Ha) as Hlt.
  pose proof (lines_read_view _ _ _ _ Hv) as Hread.
  unfold lines_read in Hread. unfold getLines in *. rewrite Ho in *.
  destruct (currentLine o) as [c|] eqn:Hc; simpl in *.
  - exists (length (arrays w)). split_and!; [done|done|by eexists|..].
    + apply view_Some. exists o. simpl. rewrite lookup_app_l by done. done.
    + intros x. apply view_Some. exists o. simpl.
      rewrite list_lookup_alter_ne by lia. rewrite lookup_app_l by done. done.
  - exists (lines o). split_and!; [done|done| |done|].
    + exists []. destruct w. unfold set_arrays. simpl. by rewrite app_nil_r.
    + intros x. apply view_Some. exists o. simpl.
      by rewrite list_lookup_alter_eq, Ha.
Qed.

Lemma C3_getLines_snapshot_witness :
  ∃ a, (getLines 0 (append 0 "x" (new_OutputChannel "out" (init 3 None "")).2)).1 = Some a ∧
       contents a (getLines 0 (append 0 "x" (new_OutputChannel "out" (init 3 None "")).2)).2 =
         [] ++ option_list (Some "x"%string).
Proof.
  destruct (C3_getLines_snapshot
              (append 0 "x" (new_OutputChannel "out" (init 3 None "")).2) 0 [] (Some "x"%string))
    as (a & H1 & H2 & _).
  - reflexivity.
  - exists a. split; assumption.
Defined.

(** ** The registry as an insertion-ordered map *)

Section jsmap.
Context {V : Type}.
Implicit Types (m : list (string * V)) (k : string) (v : V).

Lemma jsmap_get_elem k v m : JSMap.get k m = Some v → (k, v) ∈ m.
Proof.
  induction m as [|[k' v'] m IH]; simpl; [done|].
  case_decide as Hk.
  - intros [= <-]. subst k'. apply list_elem_of_here.
  - intros H. apply list_elem_of_further. auto.
Qed.

Lemma jsmap_get_None k m : JSMap.get k m = None ↔ k ∉ JSMap.keys m.
Proof.
  unfold JSMap.keys. induction m as [|[k' v'] m IH]; simpl.
  - split; [intros _; apply not_elem_of_nil|done].
  - rewrite not_elem_of_cons. case_decide as Hk; subst.
    + split; [done|]. intros [? _]. done.
    + rewrite IH. split; [by intros ?; split|by intros [_ ?]].
Qed.

Lemma jsmap_elem_get k v m : NoDup (JSMap.keys m) → (k, v) ∈ m → JSMap.get k m = Some v.
Proof.
  unfold JSMap.keys. induction m as [|[k' v'] m IH]; simpl.
  - intros _ Hin. by apply elem_of_nil in Hin.
  - intros [Hk' Hnd]%NoDup_cons [[= -> ->]|Hin]%elem_of_cons.
    + by rewrite decide_True.
    + rewrite decide_False; [auto|]. intros ->. apply Hk'.
      apply list_elem_of_fmap. by exists (k, v).
Qed.

Lemma jsmap_set_absent k v m : JSMap.get k m = None → JSMap.set k v m = m ++ [(k, v)].
Proof.
  induction m as [|[k' v'] m IH]; simpl; [done|].
  case_decide; [done|]. intros Hget. by rewrite IH.
Qed.

Lemma jsmap_get_set k v m : JSMap.get k (JSMap.set k v m) = Some v.
Proof.
  induction m as [|[k' v'] m IH]; simpl.
  - by rewrite decide_True.
  - case_decide; simpl; [by rewrite decide_True|by rewrite decide_False].
Qed.

Lemma jsmap_elem_delete k k' v' m :
  NoDup (JSMap.keys m) →
  (k', v') ∈ JSMap.delete k m ↔ (k', v') ∈ m ∧ k' ≠ k.
Proof.
  unfold JSMap.keys. induction m as [|[k0 v0] m IH]; simpl.
  - intros _. rewrite elem_of_nil. split; [done|by intros [? _]].
  - intros [Hk0 Hnd]%NoDup_cons. case_decide as Hk; subst.
    + rewrite elem_of_cons. split.
      * intros Hin. split; [by right|]. intros ->. apply Hk0.
        apply list_elem_of_fmap. by exists (k, v').
      * intros [[[= -> ->]|Hin] Hne]; done.
    + rewrite !elem_of_cons, IH by done. split.
      * intros [[= -> ->]|[? ?]]; [split; [by left|done]|split; [by right|done]].
      * intros [[?|?] ?]; [by left|by right].
Qed.

Lemma jsmap_delete_sublist k m : JSMap.delete k m `sublist_of` m.
Proof.
  induction m as [|[k0 v0] m IH]; simpl; [done|].
  case_decide; [by apply sublist_cons|by apply sublist_skip].
Qed.

Lemma jsmap_keys_delete k m :
  NoDup (JSMap.keys m) → NoDup (JSMap.keys (JSMap.delete k m)).
Proof.
  unfold JSMap.keys. intros Hnd. eapply sublist_NoDup; [done|].
  apply fmap_sublist, jsmap_delete_sublist.
Qed.
End jsmap.

(** ** Steps that leave the wiring alone *)

Lemma same_wiring_refl w : same_wiring w w.
Proof. done. Qed.

Lemma same_wiring_trans w1 w2 w3 :
  same_wiring w1 w2 → same_wiring w2 w3 → same_wiring w1 w3.
Proof.
  intros (Hc & Hd & Ho) (Hc' & Hd' & Ho'). split_and!; [congruence..|].
  intros c. by rewrite Ho', Ho.
Qed.

Lemma same_wiring_update_object w c f :
  (∀ o, wiring_of (f o) = wiring_of o) → same_wiring w (update_object c f w).
Proof.
  intros Hf. split_and!; [done..|]. intros c'. simpl.
  rewrite list_lookup_alter. case_decide; [subst|done].
  destruct (objects w !! c') as [o|]; simpl; [|done]. by rewrite Hf.
Qed.

Lemma same_wiring_set_selectedChannel w s : same_wiring w (set_selectedChannel s w).
Proof. done. Qed.

Lemma getChannels_same_wiring w w' : same_wiring w w' → getChannels w' = getChannels w.
Proof. intros (Hc & _). unfold getChannels. by rewrite Hc. Qed.

Lemma wired_same_wiring w w' k c : same_wiring w w' → wired w k c → wired w' k c.
Proof.
  intros (Hc & Hd & Ho) (o & Hl & Hn & Hv & Hk & Ht).
  specialize (Ho c). rewrite Hl in Ho. simpl in Ho.
  destruct (objects w' !! c) as [o'|] eqn:Hl'; simpl in Ho; [|done].
  injection Ho as Hn' Hv' Hk'.
  exists o'. split_and!; [done|congruence..].
Qed.

Lemma wiring_inv_same_wiring w w' : same_wiring w w' → wiring_inv w → wiring_inv w'.
Proof.
  intros Hs [Hk Hw Hr Hd]. pose proof Hs as (Hc & Ht & Ho).
  split.
  - by rewrite Hc.
  - intros k c Hin. rewrite Hc in Hin. eauto using wired_same_wiring.
  - intros c o' Hl' Hnin. rewrite (getChannels_same_wiring _ _ Hs) in Hnin.
    specialize (Ho c). rewrite Hl' in Ho. simpl in Ho.
    destruct (objects w !! c) as [o|] eqn:Hl; simpl in Ho; [|done].
    injection Ho as Hn' Hv' Hk'. destruct (Hr c o Hl Hnin) as [? ?]. split; congruence.
  - intros k Hnin. rewrite Hc in Hnin. rewrite Ht. auto.
Qed.

(** A step that leaves the wiring and the selection alone keeps the
    invariant. *)
Lemma manager_inv_same_wiring w w' :
  same_wiring w w' → selectedChannelValue w' = selectedChannelValue w →
  manager_inv w → manager_inv w'.
Proof.
  intros Hs Hsel [Hw Hr]. split; [by eapply wiring_inv_same_wiring|].
  intros c Hc. rewrite (getChannels_same_wiring _ _ Hs). apply Hr.
  unfold selectedChannel in *. congruence.
Qed.

Lemma head_getVisibleChannels w c : head (getVisibleChannels w) = Some c → c ∈ getChannels w.
Proof.
  intros Hh%head_Some_elem_of. unfold getVisibleChannels in Hh.
  apply list_elem_of_In, filter_In in Hh as [Hin _]. by apply list_elem_of_In.
Qed.

(** The emitters of an object, by whether it is in the registry. *)
Lemma inv_emitters w c o :
  wiring_inv w → objects w !! c = Some o →
  (c ∈ getChannels w ∧ visibilityChangeEmitter o = [ManagerOnVisibility c] ∧
   lockedChangeEmitter o = [ManagerOnLock c]) ∨
  ((c ∉ getChannels w) ∧ visibilityChangeEmitter o = [] ∧ lockedChangeEmitter o = []).
Proof.
  intros [_ Hw Hr _] Hl.
  destruct (decide (c ∈ getChannels w)) as [Hin|Hnin].
  - left. unfold getChannels, JSMap.values in Hin.
    apply list_elem_of_fmap in Hin as ([k c'] & -> & Hin). simpl in *.
    destruct (Hw k c' Hin) as (o' & Hl' & _ & Hv & Hk & _).
    rewrite Hl in Hl'. injection Hl' as <-.
    split_and!; [|done..]. apply list_elem_of_fmap. by exists (k, c').
  - right. destruct (Hr c o Hl Hnin). done.
Qed.

(** ** The channel methods, one by one *)

Lemma foldl_onLockChange ls w :
  ∃ evs, foldl (λ w l, onLockChange l w) w ls = with_fired (fired w ++ evs) w.
Proof.
  revert w. induction ls as [|[c] ls IH]; intros w; simpl.
  - exists []. rewrite app_nil_r. by destruct w.
  - destruct (IH (emit (ChannelLocked c) w)) as [evs ->].
    exists (ChannelLocked c :: evs). simpl. by rewrite <- app_assoc.
Qed.

Lemma toggleLocked_eq this w o :
  objects w !! this = Some o →
  ∃ evs, toggleLocked this w =
    with_fired (fired w ++ LockedChange this (negb (locked o)) :: evs)
      (update_object this (with_locked (negb (locked o))) w).
Proof.
  intros Ho. unfold toggleLocked. rewrite Ho.
  edestruct foldl_onLockChange as [evs ->]. exists evs.
  simpl. by rewrite <- app_assoc.
Qed.

Lemma same_wiring_with_fired evs w : same_wiring w (with_fired evs w).
Proof. by split_and!. Qed.

Lemma toggleLocked_dangling this w : objects w !! this = None → toggleLocked this w = w.
Proof. intros Ho. unfold toggleLocked. by rewrite Ho. Qed.

Lemma toggleLocked_same_wiring this w : same_wiring w (toggleLocked this w).
Proof.
  destruct (objects w !! this) as [o|] eqn:Ho.
  - destruct (toggleLocked_eq _ _ _ Ho) as [evs ->].
    eapply same_wiring_trans; [|apply same_wiring_with_fired].
    by apply same_wiring_update_object.
  - rewrite toggleLocked_dangling; done.
Qed.

Lemma toggleLocked_selected this w :
  selectedChannelValue (toggleLocked this w) = selectedChannelValue w.
Proof.
  destruct (objects w !! this) as [o|] eqn:Ho.
  - by destruct (toggleLocked_eq _ _ _ Ho) as [evs ->].
  - by rewrite toggleLocked_dangling.
Qed.

Lemma append_same_wiring this value w : same_wiring w (append this value w).
Proof.
  unfold append. destruct (objects w !! this) as [o|]; [|done].
  destruct (currentLine o);
    (eapply same_wiring_trans;
       [|apply (same_wiring_with_fired (fired w ++ [ContentChange this]))];
     by apply same_wiring_update_object).
Qed.

Lemma appendLine_same_wiring this line w : same_wiring w (appendLine this line w).
Proof.
  unfold appendLine. destruct (objects w !! this) as [o|]; [|done].
  split_and!.
  - destruct (currentLine o); simpl; by case_match.
  - destruct (currentLine o); simpl; by case_match.
  - intros c. destruct (currentLine o); simpl; case_match; simpl; try done;
      (rewrite list_lookup_alter; case_decide; [subst|done];
       by destruct (objects w !! c)).
Qed.

Lemma appendLine_selected this line w :
  selectedChannelValue (appendLine this line w) = selectedChannelValue w.
Proof.
  unfold appendLine. destruct (objects w !! this) as [o|]; [|done].
  destruct (currentLine o); simpl; by case_match.
Qed.

Lemma append_selected this value w :
  selectedChannelValue (append this value w) = selectedChannelValue w.
Proof.
  unfold append. destruct (objects w !! this) as [o|]; [|done].
  by destruct (currentLine o).
Qed.

Lemma clear_same_wiring this w : same_wiring w (clear this w).
Proof.
  unfold clear. destruct (objects w !! this) as [o|]; [|done].
  split_and!; [done..|]. intros c. simpl.
  rewrite list_lookup_alter. case_decide; [subst|done]. by destruct (objects w !! c).
Qed.

Lemma getLines_same_wiring this w : same_wiring w (getLines this w).2.
Proof.
  unfold getLines. destruct (objects w !! this) as [o|]; [|done].
  by destruct (currentLine o).
Qed.

Lemma getLines_selected this w :
  selectedChannelValue (getLines this w).2 = selectedChannelValue w.
Proof.
  unfold getLines. destruct (objects w !! this) as [o|]; [|done].
  by destruct (currentLine o).
Qed.

Lemma onStart_fields w :
  ∃ s, onStart w = set_lockedChannels (λ _, s) w ∧
       s = lockedChannels w ∪ list_to_set (default [] (storedLockedChannels w)).
Proof.
  unfold onStart. destruct (storedLockedChannels w) as [names|] eqn:Hs; simpl.
  - clear Hs. revert w. induction names as [|n names IH]; intros w; simpl.
    + eexists. split; [|done]. destruct w. unfold set_lockedChannels. simpl.
      f_equal. set_solver.
    + destruct (IH (set_lockedChannels (λ s, {[n]} ∪ s) w)) as (s & -> & ->).
      eexists. split; [|done]. unfold set_lockedChannels. simpl. f_equal. set_solver.
  - eexists. split; [|done]. destruct w. unfold set_lockedChannels. simpl.
    f_equal. set_solver.
Qed.

Lemma toggleScrollLock_same_wiring arg w : same_wiring w (toggleScrollLock arg w).
Proof.
  unfold toggleScrollLock. destruct arg as [c|]; [apply toggleLocked_same_wiring|].
  destruct (selectedChannel w); [apply toggleLocked_same_wiring|done].
Qed.

Lemma toggleScrollLock_selected arg w :
  selectedChannelValue (toggleScrollLock arg w) = selectedChannelValue w.
Proof.
  unfold toggleScrollLock. destruct arg as [c|]; [apply toggleLocked_selected|].
  destruct (selectedChannel w); [apply toggleLocked_selected|done].
Qed.

(** ** Registering and creating a channel *)

Lemma list_alter_Some {A} (f : A → A) (l : list A) i x :
  l !! i = Some x → alter f i l = <[i := f x]> l.
Proof.
  intros Hl. apply list_eq. intros j.
  pose proof (lookup_lt_Some _ _ _ Hl) as Hlt.
  rewrite list_lookup_alter, list_lookup_insert.
  repeat case_decide; subst; try done; try tauto. by rewrite Hl.
Qed.

Lemma list_alter_insert_eq {A} (f : A → A) (l : list A) i x :
  i < length l → alter f i (<[i := x]> l) = <[i := f x]> l.
Proof.
  intros Hlt. rewrite (list_alter_Some f _ i x) by (by apply list_lookup_insert_eq).
  by rewrite list_insert_insert_eq.
Qed.

Lemma map_alter_Some {A} (f : A → A) (m : gmap string A) k x :
  m !! k = Some x → alter f k m = <[k := f x]> m.
Proof.
  intros Hk. rewrite <- (insert_id m k x Hk) at 1. by rewrite alter_insert_eq.
Qed.

(** The state [registerListener] leaves, for an object whose emitters have no
    listener yet and whose name has no pending disposables. *)
Lemma registerListener_eq c w o :
  objects w !! c = Some o →
  visibilityChangeEmitter o = [] →
  lockedChangeEmitter o = [] →
  toDisposeOnChannelDeletion w !! name o = None ∨
    toDisposeOnChannelDeletion w !! name o = Some [] →
  registerListener c w =
    mkWorld (arrays w)
      (<[c := mkOutputChannel (name o) (lines o) (currentLine o) (visible o)
                (if decide (name o ∈ lockedChannels w) then true else locked o)
                [ManagerOnVisibility c] [ManagerOnLock c]]> (objects w))
      (channels w)
      (match selectedChannelValue w with None => Some c | Some s => Some s end)
      (<[name o := [DisposeChannel c;
                    DisposeVisibilityListener c (ManagerOnVisibility c);
                    DisposeLockListener c (ManagerOnLock c)]]>
         (toDisposeOnChannelDeletion w))
      (lockedChannels w) (maxChannelHistory w) (storedLockedChannels w)
      (windowName w) (console w)
      (fired w
       ++ (match selectedChannelValue w with
           | None => [SelectedChannelChange; ListOrSelectionChange]
           | Some _ => []
           end)
       ++ (if decide (name o ∈ lockedChannels w)
           then if locked o then [] else [LockedChange c true; ChannelLocked c]
           else [])).
Proof.
  intros Ho Hv Hl Ht. pose proof (lookup_lt_Some _ _ _ Ho) as Hlt.
  unfold registerListener. rewrite Ho.
  destruct w as [ar ob ch sel td lk mx st wn co fi].
  destruct o as [n a cur vis lck ve le]. wsimpl. subst ve le.
  destruct sel as [s|]; destruct (td !! n) as [ds|] eqn:Hn.
  all: wcbv; rewrite Hn; wcbv.
  all: rewrite (list_alter_Some _ ob c _ Ho); wcbv.
  all: rewrite list_alter_insert_eq by done; wcbv.
  all: rewrite ?list_lookup_insert_eq by done; wcbv.
  all: destruct (decide (n ∈ lk)); destruct lck; wcbv; cbn [foldl negb app].
  all: rewrite ?list_alter_insert_eq by done; wcbv.
  all: try (destruct Ht as [?|Ht]; [done|]; injection Ht as ->).
  all: rewrite ?(map_alter_Some _ td n [] Hn), !alter_insert_eq.
  all: rewrite ?app_nil_r, <- ?app_assoc; reflexivity.
Qed.

Lemma list_insert_alloc {A} (l : list A) (x y : A) : <[length l := y]> (l ++ [x]) = l ++ [y].
Proof.
  replace (length l) with (length l + 0) by lia.
  by rewrite insert_app_r.
Qed.

(** The state [getChannel] leaves when it has to construct the channel. *)
Lemma getChannel_new name w :
  JSMap.get name (channels w) = None →
  toDisposeOnChannelDeletion w !! name = None ∨
    toDisposeOnChannelDeletion w !! name = Some [] →
  getChannel name w =
    (length (objects w),
     mkWorld (arrays w ++ [[]])
       (objects w ++
          [mkOutputChannel name (length (arrays w)) None true
             (if decide (name ∈ lockedChannels w) then true else false)
             [ManagerOnVisibility (length (objects w))]
             [ManagerOnLock (length (objects w))]])
       (channels w ++ [(name, length (objects w))])
       (match selectedChannelValue w with
        | None => Some (length (objects w))
        | Some s => Some s
        end)
       (<[name := [DisposeChannel (length (objects w));
                   DisposeVisibilityListener (length (objects w))
                     (ManagerOnVisibility (length (objects w)));
                   DisposeLockListener (length (objects w))
                     (ManagerOnLock (length (objects w)))]]>
          (toDisposeOnChannelDeletion w))
       (lockedChannels w) (maxChannelHistory w) (storedLockedChannels w)
       (windowName w) (console w)
       (fired w ++ [ChannelAdded (length (objects w)); ListOrSelectionChange]
        ++ (match selectedChannelValue w with
            | None => [SelectedChannelChange; ListOrSelectionChange]
            | Some _ => []
            end)
        ++ (if decide (name ∈ lockedChannels w)
            then [LockedChange (length (objects w)) true; ChannelLocked (length (objects w))]
            else []))).
Proof.
  intros Hget Ht. unfold getChannel. rewrite Hget.
  unfold new_OutputChannel, alloc_array, fire_channelAdded. simpl.
  erewrite registerListener_eq; [|simpl; apply lookup_alloc|done|done|done].
  simpl. rewrite list_insert_alloc, jsmap_set_absent by done.
  rewrite <- !app_assoc. simpl. done.
Qed.

(** The state [deleteChannel] leaves before it fires the delete event, for a
    channel with the wiring of [registerListener]. *)
Lemma deleteChannel_eq name c w o :
  JSMap.get name (channels w) = Some c →
  objects w !! c = Some o →
  toDisposeOnChannelDeletion w !! name =
    Some [DisposeChannel c;
          DisposeVisibilityListener c (ManagerOnVisibility c);
          DisposeLockListener c (ManagerOnLock c)] →
  deleteChannel name w =
    fire_channelDelete name
      (mkWorld (arrays w)
         (<[c := with_lockedChangeEmitter (λ _, []) (with_visibilityChangeEmitter (λ _, []) o)]>
            (objects w))
         (JSMap.delete name (channels w))
         (selectedChannelValue w)
         (<[name := []]> (toDisposeOnChannelDeletion w))
         (lockedChannels w) (maxChannelHistory w) (storedLockedChannels w)
         (windowName w) (console w) (fired w)).
Proof.
  intros Hget Ho Ht. pose proof (lookup_lt_Some _ _ _ Ho) as Hlt.
  unfold deleteChannel. rewrite Hget. f_equal.
  unfold collection_dispose. simpl. rewrite Ht. simpl.
  unfold dispose, update_object, set_objects, set_toDisposeOnChannelDeletion. simpl.
  rewrite (list_alter_Some _ (objects w) c _ Ho).
  rewrite !list_alter_insert_eq by done. done.
Qed.

(** ** The invariant holds in every reachable state *)

Lemma manager_inv_init maxHistory stored wname : manager_inv (init maxHistory stored wname).
Proof.
  split; [split|]; simpl.
  - apply NoDup_nil_2.
  - intros k c Hin. by apply elem_of_nil in Hin.
  - intros c o Hl. by rewrite lookup_nil in Hl.
  - intros k _. left. apply lookup_empty.
  - intros c Hc. done.
Qed.

Lemma inv_getChannel name w :
  wiring_inv w →
  wiring_inv (getChannel name w).2 ∧
  (selection_registered w → selection_registered (getChannel name w).2).
Proof.
  intros [Hk Hw Hr Hd].
  destruct (JSMap.get name (channels w)) as [c|] eqn:Hget.
  { unfold getChannel. rewrite Hget. by split. }
  pose proof Hget as Hnin%jsmap_get_None.
  rewrite getChannel_new by auto. simpl.
  split; [split|]; unfold getChannels, JSMap.keys, JSMap.values in *; simpl.
  - rewrite fmap_app. simpl. apply NoDup_app. split_and!; [done| |apply NoDup_singleton].
    intros k Hin ->%list_elem_of_singleton. done.
  - intros k c [Hin|[= -> ->]%list_elem_of_singleton]%elem_of_app.
    + destruct (Hw k c Hin) as (o & Hl & Hn & Hv & Hlk & Ht).
      exists o. simpl. split_and!; [|done..|].
      * by apply lookup_app_l_Some.
      * rewrite lookup_insert_ne; [done|]. intros ->. apply Hnin.
        apply list_elem_of_fmap. by exists (k, c).
    + eexists. simpl. split_and!; [apply lookup_alloc|done..|].
      by rewrite lookup_insert_eq.
  - intros c o Hl Hc. rewrite fmap_app, not_elem_of_app in Hc. simpl in Hc.
    destruct Hc as [Hc Hne%not_elem_of_cons].
    apply lookup_app_Some in Hl as [Hl|[Hge Hl]]; [eauto|].
    apply list_lookup_singleton_Some in Hl as [Hz _]. destruct Hne as [Hne _]. lia.
  - intros k Hnk. rewrite fmap_app, not_elem_of_app in Hnk. simpl in Hnk.
    destruct Hnk as [Hnk [Hne _]%not_elem_of_cons].
    rewrite lookup_insert_ne by done. auto.
  - intros Hsel c Hc. unfold selection_registered, selectedChannel, getChannels, JSMap.values in *.
    simpl in *.
    rewrite fmap_app. apply elem_of_app.
    destruct (selectedChannelValue w) as [s|] eqn:Hs.
    + left. injection Hc as <-. by apply Hsel.
    + right. injection Hc as <-. simpl. apply list_elem_of_here.
Qed.

Lemma fire_channelDelete_same_wiring name w : same_wiring w (fire_channelDelete name w).
Proof.
  unfold fire_channelDelete. simpl. destruct (selectedChannelValue w); [|by split_and!].
  case_decide; by split_and!.
Qed.

Lemma fire_channelDelete_selected channelName w :
  selectedChannelValue (fire_channelDelete channelName w) =
    match selectedChannelValue w with
    | Some s =>
        if decide (name <$> objects w !! s = Some channelName)
        then head (getVisibleChannels w)
        else Some s
    | None => None
    end.
Proof.
  unfold fire_channelDelete. simpl.
  destruct (selectedChannelValue w) eqn:Hs; [|exact Hs].
  case_decide; [done|exact Hs].
Qed.

Lemma inv_deleteChannel name w :
  wiring_inv w →
  wiring_inv (deleteChannel name w) ∧
  (selection_registered w → selection_registered (deleteChannel name w)).
Proof.
  intros [Hk Hw Hr Hd].
  destruct (JSMap.get name (channels w)) as [c|] eqn:Hget.
  2: { unfold deleteChannel. rewrite Hget. by split. }
  pose proof (jsmap_get_elem _ _ _ Hget) as Hin.
  destruct (Hw name c Hin) as (o & Hl & Hn & Hv & Hlk & Ht).
  pose proof (lookup_lt_Some _ _ _ Hl) as Hlt.
  rewrite (deleteChannel_eq name c w o) by done.
  set (wd := mkWorld _ _ _ _ _ _ _ _ _ _ _).
  assert (Hother : ∀ k c', (k, c') ∈ channels w → k ≠ name → c' ≠ c).
  { intros k c' Hin' Hne ->. destruct (Hw k c Hin') as (o' & Hl' & Hn' & _).
    congruence. }
  assert (Hwd : wiring_inv wd).
  { split; subst wd; unfold getChannels, JSMap.values in *; simpl.
    - by apply jsmap_keys_delete.
    - intros k c' [Hin' Hne]%jsmap_elem_delete; [|done].
      destruct (Hw k c' Hin') as (o' & Hl' & Hn' & Hv' & Hlk' & Ht').
      exists o'. simpl. split_and!; [|done..|].
      + rewrite list_lookup_insert_ne; [done|]. intros <-. by eapply Hother.
      + by rewrite lookup_insert_ne.
    - intros c' o' Hl' Hnin. destruct (decide (c' = c)) as [->|Hne].
      { rewrite list_lookup_insert_eq in Hl' by done. by injection Hl' as <-. }
      rewrite list_lookup_insert_ne in Hl' by done. apply (Hr c' o' Hl').
      intros ([k c''] & -> & Hin')%list_elem_of_fmap. simpl in *.
      apply Hnin. apply list_elem_of_fmap. exists (k, c''). split; [done|].
      apply jsmap_elem_delete; [done|]. split; [done|]. intros ->.
      apply Hne. rewrite (jsmap_elem_get _ _ _ Hk Hin') in Hget. congruence.
    - intros k Hnin. destruct (decide (k = name)) as [->|Hne].
      { right. by rewrite lookup_insert_eq. }
      rewrite lookup_insert_ne by done. apply Hd.
      intros ([k' c'] & -> & Hin')%list_elem_of_fmap. simpl in *.
      apply Hnin. apply list_elem_of_fmap. exists (k', c'). split; [done|].
      by apply jsmap_elem_delete. }
  split; [by eapply wiring_inv_same_wiring, Hwd; apply fire_channelDelete_same_wiring|].
  intros Hsel s Hs. unfold selectedChannel in Hs.
  rewrite (getChannels_same_wiring _ _ (fire_channelDelete_same_wiring name wd)).
  rewrite fire_channelDelete_selected in Hs.
  destruct (selectedChannelValue wd) as [s0|] eqn:Hs0; [|done].
  case_decide as Hname; [by apply head_getVisibleChannels|].
  injection Hs as <-. subst wd. simpl in *.
  apply Hsel in Hs0. unfold getChannels, JSMap.values in *.
  apply list_elem_of_fmap in Hs0 as ([k s] & -> & Hin'). simpl in *.
  destruct (Hw k s Hin') as (o' & Hl' & Hn' & _).
  assert (k ≠ name) as Hne.
  { intros ->. apply Hname.
    rewrite (jsmap_elem_get _ _ _ Hk Hin') in Hget. injection Hget as ->.
    rewrite list_lookup_insert_eq by done. simpl. congruence. }
  apply list_elem_of_fmap. exists (k, s). split; [done|].
  by apply jsmap_elem_delete.
Qed.

Lemma setVisibility_registered this visible w o :
  wiring_inv w → objects w !! this = Some o → this ∈ getChannels w →
  setVisibility this visible w =
    onVisibilityChange (ManagerOnVisibility this) visible
      (emit (VisibilityChange this visible)
         (update_object this (with_visible visible) w)).
Proof.
  intros Hw Ho Hin. unfold setVisibility. rewrite Ho.
  destruct (inv_emitters _ _ _ Hw Ho) as [(_ & -> & _)|(? & _)]; done.
Qed.

Lemma setVisibility_retired this visible w o :
  wiring_inv w → objects w !! this = Some o → this ∉ getChannels w →
  setVisibility this visible w =
    emit (VisibilityChange this visible) (update_object this (with_visible visible) w).
Proof.
  intros Hw Ho Hin. unfold setVisibility. rewrite Ho.
  destruct (inv_emitters _ _ _ Hw Ho) as [(? & _)|(_ & -> & _)]; done.
Qed.

Lemma onVisibilityChange_same_wiring l visible w :
  same_wiring w (onVisibilityChange l visible w).
Proof.
  destruct l as [c]. unfold onVisibilityChange. destruct visible; [by split_and!|].
  case_decide; by split_and!.
Qed.

Lemma inv_setVisibility this visible w :
  wiring_inv w →
  wiring_inv (setVisibility this visible w) ∧
  (selection_registered w → selection_registered (setVisibility this visible w)).
Proof.
  intros Hw.
  destruct (objects w !! this) as [o|] eqn:Ho.
  2: { unfold setVisibility. by rewrite Ho. }
  assert (Hu : same_wiring w (update_object this (with_visible visible) w))
    by by apply same_wiring_update_object.
  destruct (decide (this ∈ getChannels w)) as [Hin|Hnin].
  - rewrite (setVisibility_registered _ _ _ o) by done.
    set (w1 := emit _ _).
    assert (Hs1 : same_wiring w w1) by (eapply same_wiring_trans; [exact Hu|by split_and!]).
    pose proof (onVisibilityChange_same_wiring (ManagerOnVisibility this) visible w1) as Hs2.
    split; [eapply wiring_inv_same_wiring; [|exact Hw]; by eapply same_wiring_trans|].
    intros Hsel s Hs. rewrite (getChannels_same_wiring _ _ Hs2).
    unfold selectedChannel, onVisibilityChange in Hs.
    destruct visible; simpl in Hs.
    + injection Hs as <-. by rewrite (getChannels_same_wiring _ _ Hs1).
    + case_decide; simpl in Hs.
      * by apply head_getVisibleChannels.
      * rewrite (getChannels_same_wiring _ _ Hs1). by apply Hsel.
  - rewrite (setVisibility_retired _ _ _ o) by done.
    assert (Hs : same_wiring w
                   (emit (VisibilityChange this visible)
                      (update_object this (with_visible visible) w)))
      by (eapply same_wiring_trans; [exact Hu|by split_and!]).
    split; [by eapply wiring_inv_same_wiring|].
    intros Hsel. by apply (manager_inv_same_wiring w).
Qed.

(** A call that leaves the wiring and the selection alone. *)
Lemma quiet_call c w :
  match c with
  | GetChannel _ | DeleteChannel _ | SelectChannel _ | SetVisibility _ _ => True
  | _ => same_wiring w (call c w) ∧ selectedChannelValue (call c w) = selectedChannelValue w
  end.
Proof.
  destruct c as [n|n|s|s| | |this [v|l]|this|this v|this|this|m|a x]; simpl; try done.
  - split; [apply toggleScrollLock_same_wiring|apply toggleScrollLock_selected].
  - by destruct (onStart_fields w) as (s & -> & _).
  - split; [apply append_same_wiring|apply append_selected].
  - split; [apply appendLine_same_wiring|apply appendLine_selected].
  - split; [apply clear_same_wiring|]. unfold clear. by destruct (objects w !! this).
  - split; [apply getLines_same_wiring|apply getLines_selected].
  - split; [apply toggleLocked_same_wiring|apply toggleLocked_selected].
Qed.

(** The wiring invariant is kept by every call. *)
Lemma wiring_inv_call c w : wiring_inv w → wiring_inv (call c w).
Proof.
  intros Hw. pose proof (quiet_call c w) as Hq.
  destruct c as [n|n|s|s| | |this [v|l]|this|this v|this|this|m|a x]; simpl in *;
    try (by eapply wiring_inv_same_wiring; [apply Hq|]).
  - by apply inv_getChannel.
  - by apply inv_deleteChannel.
  - by eapply wiring_inv_same_wiring, Hw.
  - by apply inv_setVisibility.
Qed.

(** The whole invariant is kept when the setter is given channels of the
    registry. *)
Lemma manager_inv_call c w : manager_inv w → selects_registered w c → manager_inv (call c w).
Proof.
  intros [Hw Hsel] Hc. split; [by apply wiring_inv_call|].
  pose proof (quiet_call c w) as Hq.
  destruct c as [n|n|s|s| | |this [v|l]|this|this v|this|this|m|a x]; simpl in *;
    try (by apply (manager_inv_same_wiring w); [apply Hq|apply Hq|]).
  - by apply inv_getChannel.
  - by apply inv_deleteChannel.
  - intros c Hs. simpl in Hs. subst s. exact Hc.
  - by apply inv_setVisibility.
Qed.

Lemma reachable_manager_inv w : reachable w → manager_inv w.
Proof.
  induction 1 as [m st wn|w c _ IH Hc]; [apply manager_inv_init|by apply manager_inv_call].
Qed.

Lemma reachable_any_wiring_inv w : reachable_any w → wiring_inv w.
Proof.
  induction 1 as [m st wn|w c _ IH]; [apply manager_inv_init|by apply wiring_inv_call].
Qed.

Lemma reachable_reachable_any w : reachable w → reachable_any w.
Proof. induction 1; by constructor. Qed.

Lemma reachable_any_call_all cs w : reachable_any w → reachable_any (call_all cs w).
Proof.
  revert w. induction cs as [|c cs IH]; intros w Hw; simpl; [done|].
  apply IH. by constructor.
Qed.

(** ** The invariant under a client that disposes channels *)

Lemma reachable_any_client w : reachable_any w → reachable_client [] w.
Proof. induction 1; by constructor. Qed.

Lemma client_inv_init maxHistory stored wname : client_inv [] (init maxHistory stored wname).
Proof.
  split; simpl.
  - apply NoDup_nil_2.
  - intros k c Hin. by apply elem_of_nil in Hin.
  - intros c o Hl. by rewrite lookup_nil in Hl.
  - intros k _. left. apply lookup_empty.
  - intros c Hc. by apply elem_of_nil in Hc.
Qed.

Lemma client_inv_same_wiring D w w' : same_wiring w w' → client_inv D w → client_inv D w'.
Proof.
  intros Hs [Hk Hw Hr Hd Hh]. pose proof Hs as (Hc & Ht & Ho).
  split.
  - by rewrite Hc.
  - intros k c Hin. rewrite Hc in Hin.
    destruct (Hw k c Hin) as (o & Hl & Hn & Hv & Hlk & Hdis).
    specialize (Ho c). rewrite Hl in Ho. simpl in Ho.
    destruct (objects w' !! c) as [o'|] eqn:Hl'; simpl in Ho; [|done].
    injection Ho as Hn' Hv' Hk'.
    exists o'. split_and!; [done|congruence..].
  - intros c o' Hl' Hnin. rewrite (getChannels_same_wiring _ _ Hs) in Hnin.
    specialize (Ho c). rewrite Hl' in Ho. simpl in Ho.
    destruct (objects w !! c) as [o|] eqn:Hl; simpl in Ho; [|done].
    injection Ho as Hn' Hv' Hk'. destruct (Hr c o Hl Hnin) as [? ?]. split; congruence.
  - intros k Hnin. rewrite Hc in Hnin. rewrite Ht. auto.
  - intros c Hin%Hh. apply lookup_lt_is_Some_2 in Hin as [o Hl].
    specialize (Ho c). rewrite Hl in Ho.
    destruct (objects w' !! c) as [o'|] eqn:Hl'; [by eapply lookup_lt_Some|done].
Qed.

Lemma foldl_onVisibilityChange_same_wiring ls visible w :
  same_wiring w (foldl (λ w l, onVisibilityChange l visible w) w ls).
Proof.
  revert w. induction ls as [|l ls IH]; intros w; [apply same_wiring_refl|].
  cbn [foldl]. eapply same_wiring_trans; [apply (onVisibilityChange_same_wiring l visible)|apply IH].
Qed.

Lemma setVisibility_same_wiring this visible w : same_wiring w (setVisibility this visible w).
Proof.
  unfold setVisibility. destruct (objects w !! this) as [o|]; [|apply same_wiring_refl].
  eapply same_wiring_trans; [|apply foldl_onVisibilityChange_same_wiring].
  eapply same_wiring_trans; [by apply (same_wiring_update_object w this (with_visible visible))|].
  by split_and!.
Qed.

Lemma client_inv_getChannel D n w : client_inv D w → client_inv D (getChannel n w).2.
Proof.
  intros [Hk Hw Hr Hd Hh].
  destruct (JSMap.get n (channels w)) as [c|] eqn:Hget.
  { unfold getChannel. rewrite Hget. by split. }
  pose proof Hget as Hnin%jsmap_get_None.
  rewrite getChannel_new by auto. simpl.
  split; unfold getChannels, JSMap.keys, JSMap.values in *; simpl.
  - rewrite fmap_app. simpl. apply NoDup_app. split_and!; [done| |apply NoDup_singleton].
    intros k Hin ->%list_elem_of_singleton. done.
  - intros k c [Hin|[= -> ->]%list_elem_of_singleton]%elem_of_app.
    + destruct (Hw k c Hin) as (o & Hl & Hn & Hv & Hlk & Ht).
      exists o. simpl. split_and!; [|done..|].
      * by apply lookup_app_l_Some.
      * rewrite lookup_insert_ne; [done|]. intros ->. apply Hnin.
        apply list_elem_of_fmap. by exists (k, c).
    + assert (length (objects w) ∉ D) as HnD by (intros Hin%Hh; lia).
      eexists. simpl. split_and!; [apply lookup_alloc|done| | |by rewrite lookup_insert_eq].
      * by destruct (decide (length (objects w) ∈ D)).
      * by destruct (decide (length (objects w) ∈ D)).
  - intros c o Hl Hc. rewrite fmap_app, not_elem_of_app in Hc. simpl in Hc.
    destruct Hc as [Hc Hne%not_elem_of_cons].
    apply lookup_app_Some in Hl as [Hl|[Hge Hl]]; [eauto|].
    apply list_lookup_singleton_Some in Hl as [Hz _]. destruct Hne as [Hne _]. lia.
  - intros k Hnk. rewrite fmap_app, not_elem_of_app in Hnk. simpl in Hnk.
    destruct Hnk as [Hnk [Hne _]%not_elem_of_cons].
    rewrite lookup_insert_ne by done. auto.
  - intros c Hc%Hh. rewrite length_app. lia.
Qed.

Lemma client_inv_deleteChannel D n w : client_inv D w → client_inv D (deleteChannel n w).
Proof.
  intros [Hk Hw Hr Hd Hh].
  destruct (JSMap.get n (channels w)) as [c|] eqn:Hget.
  2: { unfold deleteChannel. rewrite Hget. by split. }
  pose proof (jsmap_get_elem _ _ _ Hget) as Hin.
  destruct (Hw n c Hin) as (o & Hl & Hn & Hv & Hlk & Ht).
  pose proof (lookup_lt_Some _ _ _ Hl) as Hlt.
  rewrite (deleteChannel_eq n c w o) by done.
  eapply client_inv_same_wiring; [apply fire_channelDelete_same_wiring|].
  assert (Hother : ∀ k c', (k, c') ∈ channels w → k ≠ n → c' ≠ c).
  { intros k c' Hin' Hne ->. destruct (Hw k c Hin') as (o' & Hl' & Hn' & _).
    congruence. }
  split; unfold getChannels, JSMap.values in *; simpl.
  - by apply jsmap_keys_delete.
  - intros k c' [Hin' Hne]%jsmap_elem_delete; [|done].
    destruct (Hw k c' Hin') as (o' & Hl' & Hn' & Hv' & Hlk' & Ht').
    exists o'. simpl. split_and!; [|done..|].
    + rewrite list_lookup_insert_ne; [done|]. intros <-. by eapply Hother.
    + by rewrite lookup_insert_ne.
  - intros c' o' Hl' Hnin. destruct (decide (c' = c)) as [->|Hne].
    { rewrite list_lookup_insert_eq in Hl' by done. by injection Hl' as <-. }
    rewrite list_lookup_insert_ne in Hl' by done. apply (Hr c' o' Hl').
    intros ([k c''] & -> & Hin')%list_elem_of_fmap. simpl in *.
    apply Hnin. apply list_elem_of_fmap. exists (k, c''). split; [done|].
    apply jsmap_elem_delete; [done|]. split; [done|]. intros ->.
    apply Hne. rewrite (jsmap_elem_get _ _ _ Hk Hin') in Hget. congruence.
  - intros k Hnin. destruct (decide (k = n)) as [->|Hne].
    { right. by rewrite lookup_insert_eq. }
    rewrite lookup_insert_ne by done. apply Hd.
    intros ([k' c'] & -> & Hin')%list_elem_of_fmap. simpl in *.
    apply Hnin. apply list_elem_of_fmap. exists (k', c'). split; [done|].
    by apply jsmap_elem_delete.
  - intros c' Hc'%Hh. by rewrite length_insert.
Qed.

(** A client's [dispose()] takes the manager's listeners off the channel
    and leaves everything else, the registry included. *)
Lemma client_inv_dispose D this w :
  this < length (objects w) → client_inv D w → client_inv (this :: D) (dispose this w).
Proof.
  intros Hlt [Hk Hw Hr Hd Hh]. split; unfold dispose; simpl.
  - done.
  - intros k c Hin. destruct (Hw k c Hin) as (o & Hl & Hn & Hv & Hlk & Ht).
    unfold client_wired. simpl.
    destruct (decide (c = this)) as [->|Hne].
    + exists (with_lockedChangeEmitter (λ _, []) (with_visibilityChangeEmitter (λ _, []) o)).
      rewrite list_lookup_alter_eq, Hl. simpl.
      destruct (decide (this ∈ this :: D)) as [_|HD]; [done|].
      exfalso. apply HD, list_elem_of_here.
    + exists o. rewrite list_lookup_alter_ne by done.
      rewrite Hv, Hlk.
      destruct (decide (c ∈ D)) as [HD|HD], (decide (c ∈ this :: D)) as [HD'|HD']; try done.
      * exfalso. by apply HD', list_elem_of_further.
      * apply elem_of_cons in HD' as [?|?]; done.
  - intros c o Hl Hnin. destruct (decide (c = this)) as [->|Hne].
    + rewrite list_lookup_alter_eq in Hl.
      destruct (objects w !! this) as [o0|]; simpl in Hl; [|done]. by injection Hl as <-.
    + rewrite list_lookup_alter_ne in Hl by done. by apply (Hr c o).
  - done.
  - intros c [->|Hc]%elem_of_cons; rewrite length_alter; [done|by apply Hh].
Qed.

Lemma client_inv_call D c w : client_inv D w → client_inv D (call c w).
Proof.
  intros Hw. pose proof (quiet_call c w) as Hq.
  destruct c as [n|n|s|s| | |this [v|l]|this|this v|this|this|m|a x]; simpl in *;
    try (by eapply client_inv_same_wiring; [apply Hq|]).
  - by apply client_inv_getChannel.
  - by apply client_inv_deleteChannel.
  - by eapply client_inv_same_wiring, Hw.
  - eapply client_inv_same_wiring; [apply setVisibility_same_wiring|done].
Qed.

Lemma reachable_client_inv D w : reachable_client D w → client_inv D w.
Proof.
  induction 1 as [m st wn|D w c _ IH|D w this _ IH Hlt].
  - apply client_inv_init.
  - by apply client_inv_call.
  - by apply client_inv_dispose.
Qed.

(** The listeners on the emitters of an object: the manager's own, as long
    as the object is in the registry and the client has not disposed it. *)
Lemma client_emitters D w c o :
  client_inv D w → objects w !! c = Some o →
  (c ∈ getChannels w ∧ (c ∉ D) ∧ visibilityChangeEmitter o = [ManagerOnVisibility c] ∧
   lockedChangeEmitter o = [ManagerOnLock c]) ∨
  (¬ (c ∈ getChannels w ∧ c ∉ D) ∧
   visibilityChangeEmitter o = [] ∧ lockedChangeEmitter o = []).
Proof.
  intros [_ Hw Hr _ _] Hl.
  destruct (decide (c ∈ getChannels w)) as [Hin|Hnin].
  - pose proof Hin as ([k c'] & -> & Hkc)%list_elem_of_fmap. simpl in *.
    destruct (Hw k c' Hkc) as (o' & Hl' & _ & Hv & Hk & _).
    rewrite Hl in Hl'. injection Hl' as <-.
    destruct (decide (c' ∈ D)) as [HD|HD].
    + right. split_and!; [|done..]. by intros [_ ?].
    + by left.
  - right. destruct (Hr c o Hl Hnin). split_and!; [|done..]. by intros [? _].
Qed.

Lemma client_allocated D w c : client_inv D w → c ∈ getChannels w → is_Some (objects w !! c).
Proof.
  intros Hw ([k c'] & -> & Hkc)%list_elem_of_fmap.
  destruct (cinv_wired _ _ Hw k c' Hkc) as (o & Ho & _). by exists o.
Qed.

(** ** The selection: C6, C9, C4 *)

(** C6, as stated, fails: the setter takes any channel.  A client that kept
    the channel "a" after it was deleted and assigns it to [selectedChannel]
    leaves a selection that is not in the registry. *)
Lemma C6_counterexample :
  let w := call_all [GetChannel "a"; DeleteChannel "a"; SelectChannel (Some 0)]
             (init 1000 None "") in
  reachable_any w ∧ selectedChannel w = Some 0 ∧ getChannels w = [] ∧
  ¬ selection_registered w.
Proof.
  split_and!.
  - apply reachable_any_call_all. constructor.
  - reflexivity.
  - reflexivity.
  - intros H. specialize (H 0 eq_refl). vm_compute in H. by apply elem_of_nil in H.
Qed.

(** C6, amended: in every state reached by channel creation, deletion,
    visibility changes and the other calls, with the setter of
    [selectedChannel] given only channels of the registry or [undefined], at
    most one channel is selected and the selection is absent or a channel of
    the registry. *)
Theorem C6_selection_registered (w : World) :
  reachable w →
  (∀ c1 c2, selectedChannel w = Some c1 → selectedChannel w = Some c2 → c1 = c2) ∧
  selection_registered w.
Proof.
  intros [_ Hsel]%reachable_manager_inv. split; [|done]. congruence.
Qed.

Lemma C6_selection_registered_witness :
  selection_registered
    (call (SetVisibility 0 false) (call (GetChannel "a") (init 1000 None ""))).
Proof.
  apply C6_selection_registered.
  apply reachable_call; [apply reachable_call; [apply reachable_init|]|]; exact I.
Defined.

(** C9, as stated, fails: a client can call [dispose()] on a channel that is
    still in the registry.  The manager's listener is then off the channel's
    emitter, and [setVisibility(true)] on the channel "b" leaves "a"
    selected. *)
Lemma C9_counterexample :
  let w := dispose 1 (call_all [GetChannel "a"; GetChannel "b"] (init 1000 None "")) in
  reachable_client [1] w ∧ 1 ∈ getChannels w ∧
  selectedChannel (setVisibility 1 true w) = Some 0 ∧
  selectedChannel (setVisibility 1 true w) ≠ Some 1.
Proof.
  split_and!.
  - apply (reachable_client_dispose [] _ 1); [|vm_compute; lia].
    apply reachable_any_client, reachable_any_call_all. constructor.
  - vm_compute. apply list_elem_of_further, list_elem_of_here.
  - reflexivity.
  - discriminate.
Qed.

(** C9, amended: for every channel of the registry on which the client has
    not called [dispose()], [setVisibility(true)] fires the visibility event,
    whatever the flag was before, and the manager's listener makes the
    channel the selected one, whichever channel was selected.  On a channel
    of the registry that the client has disposed, the flag is set and the
    event is fired, but the selection stays as it was. *)
Theorem C9_setVisibility_selects (D : list ref) (w : World) (c : ref) :
  reachable_client D w → c ∈ getChannels w →
  isVisible c (setVisibility c true w) = true ∧
  (c ∉ D →
     selectedChannel (setVisibility c true w) = Some c ∧
     fired (setVisibility c true w) =
       fired w ++ [VisibilityChange c true; SelectedChannelChange; ListOrSelectionChange]) ∧
  (c ∈ D →
     selectedChannel (setVisibility c true w) = selectedChannel w ∧
     fired (setVisibility c true w) = fired w ++ [VisibilityChange c true]).
Proof.
  intros Hw%reachable_client_inv Hin.
  destruct (client_allocated _ _ _ Hw Hin) as [o Ho].
  unfold setVisibility. rewrite Ho.
  destruct (client_emitters _ _ _ _ Hw Ho) as [(_ & HD & -> & _)|(HD & -> & _)]; simpl.
  - split_and!; [|by rewrite <- !app_assoc|done].
    unfold isVisible. simpl. by rewrite list_lookup_alter_eq, Ho.
  - split_and!; [|intros ?; exfalso; by apply HD|done].
    unfold isVisible. simpl. by rewrite list_lookup_alter_eq, Ho.
Qed.

Lemma C9_setVisibility_selects_witness :
  let w := call (SetVisibility 1 true)
             (call (GetChannel "b") (call (GetChannel "a") (init 1000 None ""))) in
  selectedChannel w = Some 1 ∧ isVisible 0 w = true ∧
  selectedChannel (setVisibility 0 true w) = Some 0.
Proof.
  intros w.
  assert (Hr : reachable_client [] w)
    by (repeat apply reachable_client_call; apply reachable_client_init).
  assert (Hin : 0 ∈ getChannels w) by apply list_elem_of_here.
  pose proof (C9_setVisibility_selects [] w 0 Hr Hin) as (_ & H & _).
  split_and!; [reflexivity..|].
  exact (proj1 (H (not_elem_of_nil 0))).
Defined.

(** ** The two warnings: C7 *)

(** C7: [deleteChannel] of a name that is not in the registry, and
    [toggleScrollLock()] without an argument when nothing is selected, only
    log a warning: the registry, the selection, every channel and lock flag
    and the record of fired events are as before. *)
Theorem C7_warnings_change_nothing (w : World) :
  (∀ name, JSMap.get name (channels w) = None →
     deleteChannel name w =
       console_warn
         ("Could not delete channel '" +:+ name +:+ "'. The channel does not exist.") w) ∧
  (selectedChannel w = None →
     toggleScrollLock None w =
       console_warn ("Channel '" +:+ windowName w +:+ "' does not exist.") w) ∧
  (∀ msg,
     channels (console_warn msg w) = channels w ∧
     selectedChannel (console_warn msg w) = selectedChannel w ∧
     objects (console_warn msg w) = objects w ∧
     arrays (console_warn msg w) = arrays w ∧
     lockedChannels (console_warn msg w) = lockedChannels w ∧
     toDisposeOnChannelDeletion (console_warn msg w) = toDisposeOnChannelDeletion w ∧
     storedLockedChannels (console_warn msg w) = storedLockedChannels w ∧
     fired (console_warn msg w) = fired w ∧
     console (console_warn msg w) = console w ++ [msg]).
Proof.
  split_and!.
  - intros name Hget. unfold deleteChannel. by rewrite Hget.
  - intros Hsel. unfold toggleScrollLock. by rewrite Hsel.
  - intros msg. by split_and!.
Qed.

Lemma C7_warnings_change_nothing_witness :
  let w := call (SetVisibility 0 false) (call (GetChannel "a") (init 1000 None "")) in
  deleteChannel "b" w =
    console_warn "Could not delete channel 'b'. The channel does not exist." w ∧
  toggleScrollLock None w = console_warn "Channel '' does not exist." w.
Proof.
  split.
  - apply (C7_warnings_change_nothing
             (call (SetVisibility 0 false) (call (GetChannel "a") (init 1000 None "")))).
    reflexivity.
  - apply (C7_warnings_change_nothing
             (call (SetVisibility 0 false) (call (GetChannel "a") (init 1000 None "")))).
    reflexivity.
Defined.

(** ** Persisting the scroll locks: C10 *)

Lemma onStop_names w :
  wiring_inv w →
  List.map (λ c, default ""%string (name <$> objects w !! c))
    (List.filter (λ c, isLocked c w) (getChannels w)) =
  (List.filter (λ kc, isLocked kc.2 w) (channels w)).*1.
Proof.
  intros [_ Hw _ _]. unfold getChannels, JSMap.values.
  revert Hw. generalize (channels w) as m.
  induction m as [|[k c] m IH]; intros Hw; [done|].
  destruct (Hw k c) as (o & Ho & Hn & _); [apply list_elem_of_here|].
  specialize (IH (λ k' c' Hin, Hw k' c' (list_elem_of_further _ _ _ Hin))).
  cbn [fmap list_fmap List.filter snd].
  destruct (isLocked c w); cbn [List.map fmap list_fmap fst]; [|done].
  f_equal; [|done]. by rewrite Ho, <- Hn.
Qed.

(** C10: [onStop] stores exactly the names of the channels of the registry
    whose lock flag is set, in registry order, and changes nothing else; a
    name recorded by [onStart] whose channel is not in the registry is not in
    the stored list. *)
Theorem C10_onStop_persists_locked (w : World) :
  reachable_any w →
  let stored := (List.filter (λ kc, isLocked kc.2 w) (channels w)).*1 in
  onStop w = set_storedLockedChannels (Some stored) w ∧
  (∀ n, n ∈ stored ↔ ∃ c, JSMap.get n (channels w) = Some c ∧ isLocked c w = true) ∧
  (∀ n, n ∈ lockedChannels w → JSMap.get n (channels w) = None → n ∉ stored).
Proof.
  intros Hw%reachable_any_wiring_inv stored.
  assert (Hiff : ∀ n, n ∈ stored ↔
                      ∃ c, JSMap.get n (channels w) = Some c ∧ isLocked c w = true).
  { intros n. subst stored. rewrite list_elem_of_fmap. split.
    - intros ([k c] & -> & Hin). apply list_elem_of_In, filter_In in Hin as [Hin Hl].
      exists c. split; [|done]. apply jsmap_elem_get; [apply Hw|by apply list_elem_of_In].
    - intros (c & Hget & Hl). exists (n, c). split; [done|].
      apply list_elem_of_In, filter_In. split; [|done].
      by apply list_elem_of_In, jsmap_get_elem. }
  split_and!; [|done|].
  - unfold onStop. by rewrite onStop_names.
  - intros n _ Hnone (c & Hget & _)%Hiff. congruence.
Qed.

Lemma C10_onStop_persists_locked_witness :
  let w := call (ToggleLocked 1)
             (call (GetChannel "b") (call (GetChannel "a") (call Start
                (init 1000 (Some ["gone"%string]) "")))) in
  "gone"%string ∈ lockedChannels w ∧
  storedLockedChannels (onStop w) = Some ["b"%string].
Proof.
  split; [vm_compute; set_solver|].
  pose proof (C10_onStop_persists_locked
    (call (ToggleLocked 1)
       (call (GetChannel "b") (call (GetChannel "a") (call Start
          (init 1000 (Some ["gone"%string]) "")))))) as H.
  destruct H as [-> _]; [|reflexivity].
  repeat apply reachable_any_call. apply reachable_any_init.
Defined.

(** ** Deleting a channel: C4 *)

(** The selection after [deleteChannel] of a channel of the registry: the
    listener compares the name of the selected channel with the name
    deleted. *)
Lemma deleteChannel_selected_wired n c w o :
  JSMap.get n (channels w) = Some c →
  objects w !! c = Some o →
  toDisposeOnChannelDeletion w !! n =
    Some [DisposeChannel c;
          DisposeVisibilityListener c (ManagerOnVisibility c);
          DisposeLockListener c (ManagerOnLock c)] →
  getChannels (deleteChannel n w) = JSMap.values (JSMap.delete n (channels w)) ∧
  (∀ c', isVisible c' (deleteChannel n w) = isVisible c' w) ∧
  selectedChannel (deleteChannel n w) =
    match selectedChannel w with
    | Some s =>
        if decide (name <$> objects w !! s = Some n)
        then head (List.filter (λ c', isVisible c' w)
                     (JSMap.values (JSMap.delete n (channels w))))
        else Some s
    | None => None
    end.
Proof.
  intros Hget Hl Ht.
  pose proof (lookup_lt_Some _ _ _ Hl) as Hlt.
  rewrite (deleteChannel_eq n c w o) by done.
  set (wd := mkWorld _ _ _ _ _ _ _ _ _ _ _).
  assert (Hvis : ∀ c', isVisible c' wd = isVisible c' w).
  { intros c'. unfold isVisible. subst wd. simpl.
    destruct (decide (c' = c)) as [->|Hne].
    - by rewrite list_lookup_insert_eq, Hl.
    - by rewrite list_lookup_insert_ne. }
  assert (Hname : ∀ c', name <$> objects wd !! c' = name <$> objects w !! c').
  { intros c'. subst wd. simpl.
    destruct (decide (c' = c)) as [->|Hne].
    - by rewrite list_lookup_insert_eq, Hl.
    - by rewrite list_lookup_insert_ne. }
  pose proof (fire_channelDelete_same_wiring n wd) as Hs.
  split_and!.
  - by rewrite (getChannels_same_wiring _ _ Hs).
  - intros c'. rewrite <- Hvis. unfold isVisible, fire_channelDelete. simpl.
    destruct (selectedChannelValue w); [|done]. by case_decide.
  - unfold selectedChannel. rewrite fire_channelDelete_selected.
    change (selectedChannelValue wd) with (selectedChannelValue w).
    destruct (selectedChannelValue w) as [s|]; [|done].
    rewrite Hname. case_decide; [|done].
    unfold getVisibleChannels. f_equal. by apply filter_ext.
Qed.

Lemma deleteChannel_selected n c w :
  wiring_inv w → JSMap.get n (channels w) = Some c →
  getChannels (deleteChannel n w) = JSMap.values (JSMap.delete n (channels w)) ∧
  (∀ c', isVisible c' (deleteChannel n w) = isVisible c' w) ∧
  selectedChannel (deleteChannel n w) =
    match selectedChannel w with
    | Some s =>
        if decide (name <$> objects w !! s = Some n)
        then head (List.filter (λ c', isVisible c' w)
                     (JSMap.values (JSMap.delete n (channels w))))
        else Some s
    | None => None
    end.
Proof.
  intros Hw Hget.
  destruct (inv_wired _ Hw n c (jsmap_get_elem _ _ _ Hget)) as (o & Hl & _ & _ & _ & Ht).
  by apply (deleteChannel_selected_wired n c w o).
Qed.

(** C4, as stated, fails for the second half: the listener of the delete
    event compares names, so when the selection is a channel that is no
    longer in the registry (the deleted "a", assigned to [selectedChannel] by
    a client that kept it), deleting the new channel "a", which is not the
    selected one, clears the selection. *)
Lemma C4_counterexample :
  let w := call_all [GetChannel "a"; DeleteChannel "a"; SelectChannel (Some 0);
                     GetChannel "a"] (init 1000 None "") in
  reachable_any w ∧
  JSMap.get "a" (channels w) = Some 1 ∧
  selectedChannel w = Some 0 ∧
  selectedChannel (deleteChannel "a" w) = None ∧
  selectedChannel (deleteChannel "a" w) ≠ selectedChannel w.
Proof.
  split_and!; [|reflexivity..|].
  - apply reachable_any_call_all. constructor.
  - vm_compute. discriminate.
Qed.

(** C4, amended: when the registry holds a channel under [n],
    [deleteChannel(n)] moves the selection to the first remaining visible
    channel, or to none if there is none, if the selected channel has the
    name [n], and leaves the selection as it is otherwise.  When the
    selection is a channel of the registry this means: deleting the selected
    channel moves the selection, deleting another channel leaves it
    unchanged.  On a new manager, after creating "one" and "two" the channel
    "one" is selected, deleting "one" selects "two", and deleting "two"
    leaves no selection and no channel. *)
Theorem C4_delete_moves_selection (w : World) (n : string) (c : ref) :
  reachable_any w → JSMap.get n (channels w) = Some c →
  selectedChannel (deleteChannel n w) =
    match selectedChannel w with
    | Some s =>
        if decide (name <$> objects w !! s = Some n)
        then head (List.filter (λ c', isVisible c' w)
                     (JSMap.values (JSMap.delete n (channels w))))
        else Some s
    | None => None
    end ∧
  getVisibleChannels (deleteChannel n w) =
    List.filter (λ c', isVisible c' w) (JSMap.values (JSMap.delete n (channels w))) ∧
  (selection_registered w →
   (selectedChannel w = Some c →
    selectedChannel (deleteChannel n w) =
      head (List.filter (λ c', isVisible c' w)
              (JSMap.values (JSMap.delete n (channels w))))) ∧
   (selectedChannel w ≠ Some c →
    selectedChannel (deleteChannel n w) = selectedChannel w)) ∧
  ∀ maxHistory stored wname,
    let w0 := init maxHistory stored wname in
    let one := (getChannel "one" w0).1 in
    let w1 := (getChannel "one" w0).2 in
    let two := (getChannel "two" w1).1 in
    let w2 := (getChannel "two" w1).2 in
    one ≠ two ∧
    JSMap.get "one" (channels w2) = Some one ∧
    JSMap.get "two" (channels w2) = Some two ∧
    selectedChannel w1 = Some one ∧
    selectedChannel w2 = Some one ∧
    selectedChannel (deleteChannel "one" w2) = Some two ∧
    selectedChannel (deleteChannel "two" (deleteChannel "one" w2)) = None ∧
    getChannels (deleteChannel "two" (deleteChannel "one" w2)) = [].
Proof.
  intros Hinv%reachable_any_wiring_inv Hget.
  destruct (deleteChannel_selected n c w Hinv Hget) as (Hch & Hvis & Hsel).
  split_and!.
  - done.
  - unfold getVisibleChannels. rewrite Hch. by apply filter_ext.
  - intros Hreg.
    pose proof (jsmap_get_elem _ _ _ Hget) as Hin.
    destruct (inv_wired _ Hinv n c Hin) as (o & Hl & Hn & _).
    rewrite Hsel. split.
    + intros ->. rewrite Hl. simpl. rewrite decide_True; congruence.
    + intros Hne. destruct (selectedChannel w) as [s|] eqn:Hs; [|done].
      rewrite decide_False; [done|].
      pose proof (Hreg s Hs) as ([k s'] & -> & Hks)%list_elem_of_fmap. simpl in *.
      destruct (inv_wired _ Hinv k s' Hks) as (o' & Hl' & Hn' & _). rewrite Hl'. simpl.
      intros [= Heq]. apply Hne. f_equal.
      assert (k = n) as -> by congruence.
      rewrite (jsmap_elem_get _ _ _ (inv_keys _ Hinv) Hks) in Hget. congruence.
  - intros maxHistory stored wname. cbv zeta. split_and!; [done|reflexivity..].
Qed.

Lemma C4_delete_moves_selection_witness :
  let w := call (GetChannel "two") (call (GetChannel "one") (init 1000 None "")) in
  selectedChannel w = Some 0 ∧
  selectedChannel (deleteChannel "one" w) = Some 1 ∧
  selectedChannel (deleteChannel "two" w) = Some 0.
Proof.
  assert (Hr : reachable_any
            (call (GetChannel "two") (call (GetChannel "one") (init 1000 None "")))).
  { repeat apply reachable_any_call. apply reachable_any_init. }
  split_and!; [reflexivity| |].
  - destruct (C4_delete_moves_selection _ "one" 0 Hr) as (H & _); [reflexivity|].
    rewrite H; reflexivity.
  - destruct (C4_delete_moves_selection _ "two" 1 Hr) as (H & _); [reflexivity|].
    rewrite H; reflexivity.
Defined.

(** ** Creating a channel once: C5 *)

(** C5: [getChannel(n)] called twice returns the same channel both times and
    the second call changes nothing, so it fires no event; an added-event is
    fired, once, only by a call that finds no channel under [n].  Such a call
    constructs the channel visible, unlocked and empty, registers it under
    [n], and returns it visible and empty (and locked exactly when [n] is one
    of the names [onStart] recorded).  The registry never holds two channels
    with the same name. *)
Theorem C5_getChannel_idempotent (w : World) (n : string) :
  reachable_any w →
  ((getChannel n (getChannel n w).2).1 = (getChannel n w).1 ∧
   (getChannel n (getChannel n w).2).2 = (getChannel n w).2) ∧
  (∀ c, JSMap.get n (channels w) = Some c → getChannel n w = (c, w)) ∧
  (JSMap.get n (channels w) = None →
   let c := (getChannel n w).1 in
   let w' := (getChannel n w).2 in
   (∃ rest, fired w' = fired w ++ ChannelAdded c :: rest ∧ ∀ c', ChannelAdded c' ∉ rest) ∧
   objects (new_OutputChannel n w).2 !! c =
     Some (mkOutputChannel n (length (arrays w)) None true false [] []) ∧
   JSMap.get n (channels w') = Some c ∧
   isVisible c w' = true ∧
   view c w' = Some ([], None) ∧
   isLocked c w' = bool_decide (n ∈ lockedChannels w)) ∧
  NoDup (JSMap.keys (channels w)) ∧
  (∀ c1 c2 o1 o2,
     c1 ∈ getChannels w → c2 ∈ getChannels w →
     objects w !! c1 = Some o1 → objects w !! c2 = Some o2 →
     name o1 = name o2 → c1 = c2).
Proof.
  intros [Hk Hw Hr Hd]%reachable_any_wiring_inv.
  assert (Hnew : JSMap.get n (channels w) = None →
                 JSMap.get n (channels (getChannel n w).2) = Some (getChannel n w).1).
  { intros Hget. rewrite getChannel_new by (try done; apply Hd; by apply jsmap_get_None).
    simpl. rewrite <- (jsmap_set_absent n) by done. apply jsmap_get_set. }
  split_and!.
  - destruct (JSMap.get n (channels w)) as [c|] eqn:Hget.
    + unfold getChannel. rewrite Hget. simpl. by rewrite Hget.
    + specialize (Hnew eq_refl). unfold getChannel at 1. by rewrite Hnew.
  - destruct (JSMap.get n (channels w)) as [c|] eqn:Hget.
    + unfold getChannel. rewrite Hget. simpl. by rewrite Hget.
    + specialize (Hnew eq_refl). unfold getChannel at 1. by rewrite Hnew.
  - intros c Hget. unfold getChannel. by rewrite Hget.
  - intros Hget c w'. specialize (Hnew Hget). subst c w'.
    rewrite getChannel_new in * by (try done; apply Hd; by apply jsmap_get_None).
    simpl in *. split_and!.
    + eexists. split; [done|]. intros c' Hin.
      destruct (selectedChannelValue w), (decide (n ∈ lockedChannels w)); simpl in Hin;
        repeat (apply elem_of_cons in Hin as [Hin|Hin]; [discriminate|]);
        by apply elem_of_nil in Hin.
    + unfold new_OutputChannel. simpl. apply lookup_alloc.
    + done.
    + unfold isVisible. simpl. by rewrite lookup_alloc.
    + unfold view. simpl. rewrite lookup_alloc. simpl. by rewrite lookup_alloc.
    + unfold isLocked. simpl. rewrite lookup_alloc. simpl.
      reflexivity.
  - done.
  - intros c1 c2 o1 o2 ([k1 c1'] & -> & H1)%list_elem_of_fmap
      ([k2 c2'] & -> & H2)%list_elem_of_fmap Ho1 Ho2 Hname. simpl in *.
    destruct (Hw k1 c1' H1) as (o1' & Ho1' & Hn1 & _).
    destruct (Hw k2 c2' H2) as (o2' & Ho2' & Hn2 & _).
    assert (k1 = k2) as -> by congruence.
    pose proof (jsmap_elem_get _ _ _ Hk H1). pose proof (jsmap_elem_get _ _ _ Hk H2).
    congruence.
Qed.

Lemma C5_getChannel_idempotent_witness :
  let w := call (GetChannel "a") (init 1000 None "") in
  (getChannel "b" (getChannel "b" w).2).1 = (getChannel "b" w).1 ∧
  (getChannel "b" (getChannel "b" w).2).2 = (getChannel "b" w).2.
Proof.
  apply (C5_getChannel_idempotent (call (GetChannel "a") (init 1000 None "")) "b").
  apply reachable_any_call, reachable_any_init.
Defined.

(** ** Restoring the scroll locks: C8 *)

(** Recording one more name commutes with every step that does not read
    [lockedChannels]. *)
Lemma onLockChange_record N ls w :
  foldl (λ w l, onLockChange l w) (record_name N w) ls =
  record_name N (foldl (λ w l, onLockChange l w) w ls).
Proof.
  revert w. induction ls as [|[c] ls IH]; intros w; [done|]. simpl. by rewrite <- IH.
Qed.

Lemma toggleLocked_record N this w :
  toggleLocked this (record_name N w) = record_name N (toggleLocked this w).
Proof.
  unfold toggleLocked. simpl. destruct (objects w !! this) as [o|]; [|done].
  by rewrite <- onLockChange_record.
Qed.

Lemma onVisibilityChange_record N l visible w :
  onVisibilityChange l visible (record_name N w) =
  record_name N (onVisibilityChange l visible w).
Proof.
  destruct l as [c]. unfold onVisibilityChange. destruct visible; [done|].
  change (selectedChannel (record_name N w)) with (selectedChannel w).
  by destruct (decide (Some c = selectedChannel w)).
Qed.

Lemma foldl_onVisibilityChange_record N visible ls w :
  foldl (λ w l, onVisibilityChange l visible w) (record_name N w) ls =
  record_name N (foldl (λ w l, onVisibilityChange l visible w) w ls).
Proof.
  revert w. induction ls as [|l ls IH]; intros w; [done|]. simpl.
  by rewrite onVisibilityChange_record, IH.
Qed.

Lemma setVisibility_record N this visible w :
  setVisibility this visible (record_name N w) = record_name N (setVisibility this visible w).
Proof.
  unfold setVisibility. simpl. destruct (objects w !! this) as [o|]; [|done].
  apply (foldl_onVisibilityChange_record N visible (visibilityChangeEmitter o)
           (emit (VisibilityChange this visible)
              (update_object this (with_visible visible) w))).
Qed.

Lemma dispose_one_record N d w :
  dispose_one d (record_name N w) = record_name N (dispose_one d w).
Proof. by destruct d. Qed.

Lemma foldr_dispose_one_record N ds w :
  foldr dispose_one (record_name N w) ds = record_name N (foldr dispose_one w ds).
Proof.
  induction ds as [|d ds IH]; [done|]. simpl. by rewrite IH, dispose_one_record.
Qed.

Lemma deleteChannel_record N n w :
  deleteChannel n (record_name N w) = record_name N (deleteChannel n w).
Proof.
  unfold deleteChannel. simpl. destruct (JSMap.get n (channels w)) as [c|]; [|done].
  set (w1 := set_channels _ w).
  assert (Hd : collection_dispose n (record_name N w1) =
               record_name N (collection_dispose n w1)).
  { unfold collection_dispose. simpl.
    destruct (toDisposeOnChannelDeletion w !! n) as [ds|]; [|done].
    by rewrite foldr_dispose_one_record. }
  change (set_channels (JSMap.delete n) (record_name N w)) with (record_name N w1).
  rewrite Hd. generalize (collection_dispose n w1) as w2. intros w2.
  unfold fire_channelDelete, selectedChannel. simpl.
  destruct (selectedChannelValue w2) as [s|]; [|done].
  by destruct (decide (name <$> objects w2 !! s = Some n)).
Qed.

Lemma getChannel_record N n w :
  wiring_inv w → ¬ constructs N w (GetChannel n) →
  getChannel n (record_name N w) = ((getChannel n w).1, record_name N (getChannel n w).2).
Proof.
  intros Hw Hc.
  destruct (JSMap.get n (channels w)) as [c|] eqn:Hget.
  { unfold getChannel. simpl. by rewrite Hget. }
  assert (n ≠ N) as Hne by (intros ->; by apply Hc).
  pose proof (inv_disposed _ Hw n (proj1 (jsmap_get_None _ _) Hget)) as Hd.
  rewrite !getChannel_new by done.
  cbn [fst snd record_name set_lockedChannels arrays objects channels selectedChannelValue
       toDisposeOnChannelDeletion lockedChannels maxChannelHistory storedLockedChannels
       windowName console fired].
  destruct (decide (n ∈ {[N]} ∪ lockedChannels w)) as [Hin|Hnin],
    (decide (n ∈ lockedChannels w)) as [Hin'|Hnin']; try done; set_solver.
Qed.

Lemma onStart_record N w : onStart (record_name N w) = record_name N (onStart w).
Proof.
  destruct (onStart_fields w) as (s & -> & ->).
  destruct (onStart_fields (record_name N w)) as (s' & -> & ->).
  unfold record_name, set_lockedChannels. simpl. f_equal. set_solver.
Qed.

Lemma call_record N c w :
  wiring_inv w → ¬ constructs N w c →
  call c (record_name N w) = record_name N (call c w).
Proof.
  intros Hw Hc. destruct c as [n|n|s|s| | |this [v|l]|this|this v|this|this|m|a x]; simpl.
  - by rewrite getChannel_record.
  - apply deleteChannel_record.
  - done.
  - unfold toggleScrollLock. destruct s as [c|]; [apply toggleLocked_record|].
    unfold selectedChannel. simpl.
    destruct (selectedChannelValue w) eqn:Hs; [apply toggleLocked_record|done].
  - apply onStart_record.
  - done.
  - unfold append. simpl. destruct (objects w !! this) as [o|]; [|done].
    by destruct (currentLine o).
  - unfold appendLine. simpl. destruct (objects w !! this) as [o|]; [|done].
    destruct (currentLine o); unfold contents; simpl; by case_match.
  - unfold clear. simpl. by destruct (objects w !! this).
  - apply setVisibility_record.
  - unfold getLines. simpl. destruct (objects w !! this) as [o|]; [|done].
    by destruct (currentLine o).
  - apply toggleLocked_record.
  - done.
  - done.
Qed.

Lemma call_all_record N cs w :
  wiring_inv w → never_constructs N cs w →
  call_all cs (record_name N w) = record_name N (call_all cs w).
Proof.
  revert w. induction cs as [|c cs IH]; intros w Hinv Hrun; [done|].
  destruct Hrun as (Hc & Hrun). simpl.
  rewrite call_record by done.
  apply IH; [by apply wiring_inv_call|done].
Qed.

(** C8: [onStart] only records the stored names: it sets no lock flag and
    changes no channel.  Once [N] is recorded, the [getChannel(N)] that
    constructs the channel registers it locked, [toggleLocked] being applied
    once, which fires one lock change with the value true.  As long as the
    channel [N] is not constructed, the recorded name has no effect: any run
    of calls ends in the state it would end in without the record, up to the
    recorded name itself, and so with the same lock flags. *)
Theorem C8_lazy_lock_restoration (w : World) (N : string) :
  reachable_any w →
  (∀ names, storedLockedChannels w = Some names → N ∈ names →
     N ∈ lockedChannels (onStart w) ∧
     objects (onStart w) = objects w ∧
     channels (onStart w) = channels w ∧
     fired (onStart w) = fired w) ∧
  (N ∈ lockedChannels w → JSMap.get N (channels w) = None →
     let c := (getChannel N w).1 in
     let w' := (getChannel N w).2 in
     JSMap.get N (channels w') = Some c ∧
     isLocked c w' = true ∧
     ∃ sel, fired w' =
              fired w ++ [ChannelAdded c; ListOrSelectionChange] ++ sel
              ++ [LockedChange c true; ChannelLocked c] ∧
            ∀ e, e ∈ sel → e = SelectedChannelChange ∨ e = ListOrSelectionChange) ∧
  (∀ cs, never_constructs N cs w →
     call_all cs (record_name N w) = record_name N (call_all cs w) ∧
     objects (call_all cs (record_name N w)) = objects (call_all cs w)).
Proof.
  intros Hinv%reachable_any_wiring_inv. split_and!.
  - intros names Hst Hin. destruct (onStart_fields w) as (s & -> & ->).
    rewrite Hst. simpl. split_and!; [|done..]. set_solver.
  - intros Hin Hget c w'. subst c w'.
    pose proof (inv_disposed _ Hinv N (proj1 (jsmap_get_None _ _) Hget)) as Hd.
    rewrite getChannel_new by done. simpl.
    destruct (decide (N ∈ lockedChannels w)) as [_|?]; [|done]. split_and!.
    + rewrite <- (jsmap_set_absent N) by done. apply jsmap_get_set.
    + unfold isLocked. simpl. by rewrite lookup_alloc.
    + exists (match selectedChannelValue w with
              | None => [SelectedChannelChange; ListOrSelectionChange]
              | Some _ => []
              end).
      split; [reflexivity|]. intros e He.
      destruct (selectedChannelValue w); [by apply elem_of_nil in He|].
      apply elem_of_cons in He as [->|He]; [by left|].
      apply list_elem_of_singleton in He as ->. by right.
  - intros cs Hrun. rewrite call_all_record by done. done.
Qed.

Lemma C8_lazy_lock_restoration_witness :
  let w := call Start (init 1000 (Some ["a"%string]) "") in
  isLocked (getChannel "a" w).1 (getChannel "a" w).2 = true ∧
  isLocked (getChannel "b" w).1 (getChannel "b" w).2 = false.
Proof.
  split; [|reflexivity].
  apply (C8_lazy_lock_restoration (call Start (init 1000 (Some ["a"%string]) "")) "a").
  - apply reachable_any_call, reachable_any_init.
  - vm_compute. set_solver.
  - reflexivity.
Defined.

(** * Further properties of the two classes *)

(** ** [clear] and [toggleLocked] *)

Lemma clear_view this w xs cur :
  view this w = Some (xs, cur) → view this (clear this w) = Some ([], None).
Proof.
  intros (o & Ho & Ha & <-)%view_Some. apply view_Some.
  unfold clear. rewrite Ho. exists (with_currentLine None o). simpl.
  by rewrite !list_lookup_alter_eq, Ho, Ha.
Qed.

Lemma clear_maxChannelHistory this w :
  maxChannelHistory (clear this w) = maxChannelHistory w.
Proof. unfold clear. by destruct (objects w !! this). Qed.

(** X1: [clear()] empties the [lines] array in place and drops the current
    line: [getLines()] returns the empty list, the array the channel had
    before is the one emptied, and calls made afterwards give what they give
    on a new channel. *)
Theorem X1_clear_resets (w : World) (this : ref) (o : OutputChannel)
    (xs : list string) (cs : list ChannelCall) :
  objects w !! this = Some o → arrays w !! lines o = Some xs →
  lines_read this (clear this w) = [] ∧
  (lines <$> objects (clear this w) !! this = Some (lines o) ∧
   arrays (clear this w) !! lines o = Some []) ∧
  lines_read this (call_channel_all this cs (clear this w)) =
    last_n (Z.to_nat (maxChannelHistory w)) (completed_lines None cs)
    ++ option_list (trailing None cs).
Proof.
  intros Ho Ha.
  assert (Hv : view this (clear this w) = Some ([], None)).
  { eapply clear_view, view_Some. by exists o. }
  split_and!.
  - by rewrite (lines_read_view _ _ _ _ Hv).
  - unfold clear. rewrite Ho. simpl. by rewrite list_lookup_alter_eq, Ho.
  - unfold clear. rewrite Ho. simpl. by rewrite list_lookup_alter_eq, Ha.
  - apply lines_read_view.
    rewrite (call_channel_all_view _ cs _ [] None Hv) by (simpl; lia).
    by rewrite clear_maxChannelHistory.
Qed.

Lemma X1_clear_resets_witness :
  let w := call_channel_all 0 [CallAppendLine "a"; CallAppend "b"]
             (new_OutputChannel "out" (init 1000 None "")).2 in
  lines_read 0 w = ["a"; "b"]%string ∧ lines_read 0 (clear 0 w) = [].
Proof.
  split; [reflexivity|].
  eapply (X1_clear_resets _ 0 _ ["a"%string] []); reflexivity.
Defined.

(** X2: [toggleLocked()] called twice on a channel leaves every field of
    every object and of the manager as it was; what is added is the record
    of two lock changes carrying the flipped value and then the original one,
    each re-broadcast by the manager exactly when the channel is in the
    registry and the client has not called [dispose()] on it. *)
Theorem X2_toggleLocked_twice (D : list ref) (w : World) (c : ref) (o : OutputChannel) :
  reachable_client D w → objects w !! c = Some o →
  toggleLocked c (toggleLocked c w) =
    with_fired
      (fired w ++
       if decide (c ∈ getChannels w ∧ c ∉ D)
       then [LockedChange c (negb (locked o)); ChannelLocked c;
             LockedChange c (locked o); ChannelLocked c]
       else [LockedChange c (negb (locked o)); LockedChange c (locked o)]) w.
Proof.
  intros Hw%reachable_client_inv Ho.
  pose proof (lookup_lt_Some _ _ _ Ho) as Hlt.
  assert (Hobj : alter (with_locked (negb (negb (locked o)))) c
                   (alter (with_locked (negb (locked o))) c (objects w)) = objects w).
  { rewrite (list_alter_Some _ _ _ _ Ho), list_alter_insert_eq by done.
    rewrite negb_involutive. apply list_insert_id. rewrite Ho. by destruct o. }
  destruct (client_emitters _ _ _ _ Hw Ho) as [(Hin & HD & _ & Hl)|(Hnin & _ & Hl)].
  - rewrite decide_True by done. unfold toggleLocked at 2. rewrite Ho, Hl. simpl.
    unfold toggleLocked. simpl. rewrite list_lookup_alter_eq, Ho. simpl. rewrite Hl. simpl.
    unfold with_fired, update_object, set_objects, emit. simpl. rewrite Hobj.
    by rewrite negb_involutive, <- !app_assoc.
  - rewrite decide_False by done. unfold toggleLocked at 2. rewrite Ho, Hl. simpl.
    unfold toggleLocked. simpl. rewrite list_lookup_alter_eq, Ho. simpl. rewrite Hl. simpl.
    unfold with_fired, update_object, set_objects, emit. simpl. rewrite Hobj.
    by rewrite negb_involutive, <- !app_assoc.
Qed.

Lemma X2_toggleLocked_twice_witness :
  let w := dispose 0 (call (GetChannel "a") (init 1000 None "")) in
  fired (toggleLocked 0 (toggleLocked 0 w)) =
    fired w ++ [LockedChange 0 true; LockedChange 0 false].
Proof.
  intros w.
  assert (Hr : reachable_client [0] w).
  { apply (reachable_client_dispose [] _ 0); [|vm_compute; lia].
    apply reachable_client_call, reachable_client_init. }
  assert (Ho : objects w !! 0 = Some (mkOutputChannel "a" 0 None true false [] []))
    by reflexivity.
  pose proof (X2_toggleLocked_twice [0] w 0 _ Hr Ho) as H.
  rewrite decide_False in H by (intros [_ HD]; apply HD, list_elem_of_here).
  clearbody w. rewrite H. reflexivity.
Defined.

(** ** The stored scroll locks across two sessions *)

(** X3: [onStart] changes nothing when the stored value is not an array; it
    never drops a name it had recorded, records every stored name and no
    other, and running it again changes nothing more. *)
Theorem X3_onStart_idempotent (w : World) :
  (storedLockedChannels w = None → onStart w = w) ∧
  (∀ n, n ∈ lockedChannels (onStart w) ↔
        n ∈ lockedChannels w ∨ n ∈ default [] (storedLockedChannels w)) ∧
  onStart (onStart w) = onStart w.
Proof.
  split_and!.
  - intros Hs. unfold onStart. by rewrite Hs.
  - intros n. destruct (onStart_fields w) as (s & -> & ->). simpl. set_solver.
  - destruct (onStart_fields w) as (s & Hw & ->). rewrite Hw.
    destruct (onStart_fields (set_lockedChannels
      (λ _, lockedChannels w ∪ list_to_set (default [] (storedLockedChannels w))) w))
      as (s' & -> & ->).
    unfold set_lockedChannels. simpl. f_equal. set_solver.
Qed.

Lemma X3_onStart_idempotent_witness :
  onStart (init 1000 None "") = init 1000 None "".
Proof. exact (proj1 (X3_onStart_idempotent (init 1000 None "")) eq_refl). Defined.

Lemma onStop_stored w :
  wiring_inv w →
  ∃ stored, storedLockedChannels (onStop w) = Some stored ∧
    ∀ n, n ∈ stored ↔ ∃ c, JSMap.get n (channels w) = Some c ∧ isLocked c w = true.
Proof.
  intros Hw. exists ((List.filter (λ kc, isLocked kc.2 w) (channels w)).*1). split.
  - unfold onStop. simpl. by rewrite onStop_names.
  - intros n. rewrite list_elem_of_fmap. split.
    + intros ([k c] & -> & Hin). apply list_elem_of_In, filter_In in Hin as [Hin Hl].
      exists c. split; [|done]. apply jsmap_elem_get; [apply Hw|by apply list_elem_of_In].
    + intros (c & Hget & Hl). exists (n, c). split; [done|].
      apply list_elem_of_In, filter_In. split; [|done].
      by apply list_elem_of_In, jsmap_get_elem.
Qed.

(** X4: what [onStop] stores in one session is what [onStart] restores in
    the next: on the manager of the next session, started on the stored
    value, [getChannel(n)] returns a locked channel exactly when the session
    that stopped had a channel registered under [n] with its lock flag set. *)
Theorem X4_locks_survive_restart (w : World) (maxHistory : Z) (wname : string) (n : string) :
  reachable_any w →
  let next := onStart (init maxHistory (storedLockedChannels (onStop w)) wname) in
  isLocked (getChannel n next).1 (getChannel n next).2 = true ↔
  ∃ c, JSMap.get n (channels w) = Some c ∧ isLocked c w = true.
Proof.
  intros Hw%reachable_any_wiring_inv next.
  destruct (onStop_stored w Hw) as (stored & Hst & Hiff).
  rewrite <- Hiff. subst next. rewrite Hst.
  destruct (onStart_fields (init maxHistory (Some stored) wname)) as (s & -> & ->).
  rewrite getChannel_new by (simpl; try done; left; apply lookup_empty).
  unfold isLocked. simpl. case_decide as Hin.
  - split; [intros _|done]. set_solver.
  - split; [done|]. intros Hn. exfalso. apply Hin. set_solver.
Qed.

Lemma X4_locks_survive_restart_witness :
  let w := call (ToggleLocked 0) (call (GetChannel "a") (init 1000 None "")) in
  let next := onStart (init 1000 (storedLockedChannels (onStop w)) "") in
  isLocked (getChannel "a" next).1 (getChannel "a" next).2 = true.
Proof.
  intros w next.
  assert (Hr : reachable_any w) by (repeat apply reachable_any_call; apply reachable_any_init).
  apply (X4_locks_survive_restart w 1000 "" "a" Hr).
  exists 0. split; reflexivity.
Defined.

(** ** Calls that leave the shape of the objects alone *)

Lemma same_shape_refl w : same_shape w w.
Proof. by split. Qed.

Lemma same_shape_trans w1 w2 w3 : same_shape w1 w2 → same_shape w2 w3 → same_shape w1 w3.
Proof.
  intros [H1 L1] [H2 L2]. split; [|lia]. intros i. by rewrite H2, H1.
Qed.

Lemma same_shape_update_object w c f :
  (∀ o, shape_of (f o) = shape_of o) → same_shape w (update_object c f w).
Proof.
  intros Hf. split; [|done]. intros i. simpl.
  rewrite list_lookup_alter. case_decide; [subst|done].
  destruct (objects w !! i) as [o|]; simpl; [|done]. by rewrite Hf.
Qed.

Lemma same_shape_update_array w a f : same_shape w (update_array a f w).
Proof. split; [done|]. simpl. by rewrite length_alter. Qed.

Lemma same_shape_isVisible w w' i : same_shape w w' → isVisible i w' = isVisible i w.
Proof.
  intros [H _]. specialize (H i). unfold isVisible.
  destruct (objects w' !! i) as [o'|], (objects w !! i) as [o|]; simpl in H; try done.
  by injection H.
Qed.

Lemma toggleLocked_same_shape this w : same_shape w (toggleLocked this w).
Proof.
  destruct (objects w !! this) as [o|] eqn:Ho.
  - destruct (toggleLocked_eq _ _ _ Ho) as [evs ->].
    apply (same_shape_update_object w this (with_locked (negb (locked o)))). done.
  - rewrite toggleLocked_dangling by done. apply same_shape_refl.
Qed.

Lemma appendLine_same_shape this line w : same_shape w (appendLine this line w).
Proof.
  unfold appendLine. destruct (objects w !! this) as [o|]; [|apply same_shape_refl].
  split.
  - intros i. destruct (currentLine o); simpl; case_match; simpl; try done;
      (rewrite list_lookup_alter; case_decide; [subst|done];
       by destruct (objects w !! i)).
  - destruct (currentLine o); simpl; case_match; simpl; by rewrite ?length_alter.
Qed.

(** A call other than creation, deletion, [setVisibility] and the setter
    keeps the registry, the selection and the shape of every object. *)
Lemma quiet_call_shape c w :
  match c with
  | GetChannel _ | DeleteChannel _ | SelectChannel _ | SetVisibility _ _ => True
  | _ => same_shape w (call c w)
  end.
Proof.
  destruct c as [n|n|s|s| | |this [v|l]|this|this v|this|this|m|a x]; simpl; try done.
  - unfold toggleScrollLock. destruct s; [apply toggleLocked_same_shape|].
    destruct (selectedChannel w); [apply toggleLocked_same_shape|(split; [intros i; reflexivity|simpl; lia])].
  - destruct (onStart_fields w) as (s & -> & _). by split.
  - unfold append. destruct (objects w !! this) as [o|]; [|apply same_shape_refl].
    destruct (currentLine o);
      apply (same_shape_update_object w this (with_currentLine _)); done.
  - apply appendLine_same_shape.
  - unfold clear. destruct (objects w !! this) as [o|]; [|apply same_shape_refl].
    eapply same_shape_trans; [apply (same_shape_update_array w (lines o) JSArray.truncate)|].
    eapply same_shape_trans;
      [apply (same_shape_update_object _ this (with_currentLine None)); done|].
    (split; [intros i; reflexivity|simpl; lia]).
  - unfold getLines. destruct (objects w !! this) as [o|]; [|apply same_shape_refl].
    destruct (currentLine o); [|apply same_shape_refl].
    split; [done|]. simpl. rewrite length_app. lia.
  - apply toggleLocked_same_shape.
  - apply same_shape_update_array.
Qed.

(** ** Hiding a channel, and the selection among the visible channels *)

Lemma getVisibleChannels_ext w w' :
  channels w' = channels w →
  (∀ i, i ∈ getChannels w → isVisible i w' = isVisible i w) →
  getVisibleChannels w' = getVisibleChannels w.
Proof.
  intros Hc Hv. unfold getVisibleChannels, getChannels in *. rewrite Hc.
  apply filter_ext_in. intros i Hi. apply Hv. by apply list_elem_of_In.
Qed.

Lemma elem_of_getVisibleChannels w c :
  c ∈ getVisibleChannels w ↔ c ∈ getChannels w ∧ isVisible c w = true.
Proof.
  unfold getVisibleChannels. rewrite list_elem_of_In, filter_In, <- list_elem_of_In. done.
Qed.

Lemma head_filter_shown {A} (f : A → bool) (l : list A) :
  match head (List.filter f l) with
  | Some x => x ∈ List.filter f l
  | None => List.filter f l = []
  end.
Proof. destruct (List.filter f l); [done|]. apply list_elem_of_here. Qed.

Lemma isVisible_hide w c o x :
  objects w !! c = Some o →
  isVisible x (update_object c (with_visible false) w) =
    isVisible x w && bool_decide (x ≠ c).
Proof.
  intros Ho. unfold isVisible. simpl. destruct (decide (x = c)) as [->|Hne].
  - rewrite list_lookup_alter_eq, Ho. simpl.
    rewrite bool_decide_false by tauto. by rewrite andb_false_r.
  - rewrite list_lookup_alter_ne by done.
    rewrite bool_decide_true by done. by rewrite andb_true_r.
Qed.

Lemma getVisibleChannels_hide w c o :
  objects w !! c = Some o →
  getVisibleChannels (update_object c (with_visible false) w) =
    List.filter (λ c', bool_decide (c' ≠ c)) (getVisibleChannels w).
Proof.
  intros Ho. unfold getVisibleChannels, getChannels.
  change (channels (update_object c (with_visible false) w)) with (channels w).
  induction (JSMap.values (channels w)) as [|x l IH]; [done|].
  cbn [List.filter]. rewrite IH, (isVisible_hide w c o x Ho).
  destruct (isVisible x w); cbn [andb List.filter]; [|done].
  by destruct (bool_decide (x ≠ c)).
Qed.

(** X5: [setVisibility(false)] on a channel of the registry takes it out of
    the visible channels and leaves the others.  If the channel was selected
    and the client has not called [dispose()] on it, the selection moves to
    the first channel still visible, or to none, with a selection change
    fired; if it was not selected, or the client has disposed it, the
    selection stays and the manager fires no event at all. *)
Theorem X5_hiding_moves_selection (D : list ref) (w : World) (c : ref) :
  reachable_client D w → c ∈ getChannels w →
  let w' := setVisibility c false w in
  getVisibleChannels w' = List.filter (λ c', bool_decide (c' ≠ c)) (getVisibleChannels w) ∧
  (selectedChannel w = Some c → c ∉ D →
     selectedChannel w' = head (getVisibleChannels w') ∧
     fired w' = fired w ++ [VisibilityChange c false; SelectedChannelChange;
                            ListOrSelectionChange]) ∧
  (selectedChannel w ≠ Some c ∨ c ∈ D →
     selectedChannel w' = selectedChannel w ∧
     fired w' = fired w ++ [VisibilityChange c false]).
Proof.
  intros Hw%reachable_client_inv Hin w'. subst w'.
  destruct (client_allocated _ _ _ Hw Hin) as [o Ho].
  pose proof (getVisibleChannels_hide w c o Ho) as Hvis.
  unfold setVisibility. rewrite Ho.
  destruct (client_emitters _ _ _ _ Hw Ho) as [(_ & HD & -> & _)|(HD & -> & _)];
    cbn [foldl].
  - unfold onVisibilityChange, selectedChannel. simpl.
    destruct (decide (Some c = selectedChannelValue w)) as [Heq|Hne]; simpl.
    + split_and!; [done| |intros [?|?]; [congruence|done]].
      intros _ _. split; [done|]. by rewrite <- !app_assoc.
    + split_and!; [done|congruence|]. done.
  - split_and!; [done| |done].
    intros _ ?. exfalso. by apply HD.
Qed.

Lemma X5_hiding_moves_selection_witness :
  let w := call (GetChannel "two") (call (GetChannel "one") (init 1000 None "")) in
  getVisibleChannels (setVisibility 0 false w) = [1] ∧
  getVisibleChannels (setVisibility 1 false w) = [0].
Proof.
  intros w.
  assert (Hr : reachable_client [] w)
    by (repeat apply reachable_client_call; apply reachable_client_init).
  split.
  - destruct (X5_hiding_moves_selection [] w 0 Hr) as [-> _]; [|reflexivity].
    vm_compute. apply list_elem_of_here.
  - destruct (X5_hiding_moves_selection [] w 1 Hr) as [-> _]; [|reflexivity].
    vm_compute. apply list_elem_of_further, list_elem_of_here.
Defined.

Lemma registry_allocated w c : wiring_inv w → c ∈ getChannels w → c < length (objects w).
Proof.
  intros Hw ([k c'] & -> & Hkc)%list_elem_of_fmap.
  destruct (inv_wired _ Hw k c' Hkc) as (o & Ho & _). by eapply lookup_lt_Some.
Qed.

Lemma selection_shown_getChannel D n w :
  client_inv D w → selection_shown w → selection_shown (getChannel n w).2.
Proof.
  intros Hw Hs.
  destruct (JSMap.get n (channels w)) as [c|] eqn:Hget.
  { unfold getChannel. by rewrite Hget. }
  pose proof (cinv_disposed _ _ Hw n (proj1 (jsmap_get_None _ _) Hget)) as Hd.
  rewrite getChannel_new by done. simpl.
  set (w' := mkWorld _ _ _ _ _ _ _ _ _ _ _).
  assert (Hvis : getVisibleChannels w' = getVisibleChannels w ++ [length (objects w)]).
  { unfold getVisibleChannels, getChannels, JSMap.values. subst w'. simpl.
    rewrite fmap_app, List.filter_app. simpl. f_equal.
    - apply filter_ext_in. intros i Hi%list_elem_of_In.
      unfold isVisible. simpl. rewrite lookup_app_l; [done|].
      by apply lookup_lt_is_Some, (client_allocated D).
    - unfold isVisible. simpl. by rewrite lookup_alloc. }
  unfold selection_shown, selectedChannel in *. rewrite Hvis. subst w'. simpl.
  destruct (selectedChannelValue w) as [s|].
  - apply elem_of_app. by left.
  - apply elem_of_app. right. apply list_elem_of_here.
Qed.

Lemma selection_shown_deleteChannel D n w :
  client_inv D w → selection_shown w → selection_shown (deleteChannel n w).
Proof.
  intros Hw Hs.
  destruct (JSMap.get n (channels w)) as [c|] eqn:Hget.
  2: { unfold deleteChannel. by rewrite Hget. }
  destruct (cinv_wired _ _ Hw n c (jsmap_get_elem _ _ _ Hget)) as (o & Ho & _ & _ & _ & Ht).
  destruct (deleteChannel_selected_wired n c w o Hget Ho Ht) as (Hch & Hvis & Hsel).
  assert (Hv' : getVisibleChannels (deleteChannel n w) =
                List.filter (λ c', isVisible c' w) (JSMap.values (JSMap.delete n (channels w)))).
  { unfold getVisibleChannels. rewrite Hch. by apply filter_ext. }
  unfold selection_shown in *. rewrite Hsel, Hv'.
  destruct (selectedChannel w) as [s|] eqn:Hss.
  - case_decide as Hname; [apply head_filter_shown|].
    apply elem_of_getVisibleChannels in Hs as [Hin Hvs].
    apply list_elem_of_In, filter_In. split; [|done]. apply list_elem_of_In.
    apply list_elem_of_fmap in Hin as ([k s'] & -> & Hks). simpl in *.
    destruct (cinv_wired _ _ Hw k s' Hks) as (o' & Hl' & Hn' & _).
    apply list_elem_of_fmap. exists (k, s'). split; [done|].
    apply jsmap_elem_delete; [apply Hw|]. split; [done|].
    intros ->. apply Hname. by rewrite Hl', <- Hn'.
  - destruct (List.filter _ _) as [|x l] eqn:Hf; [done|]. exfalso.
    assert (x ∈ getVisibleChannels w) as Hx; [|rewrite Hs in Hx; by apply elem_of_nil in Hx].
    assert (In x (List.filter (λ c', isVisible c' w)
                    (JSMap.values (JSMap.delete n (channels w))))) as [Hx Hxv]%filter_In
      by (rewrite Hf; by left).
    apply elem_of_getVisibleChannels. split; [|done].
    apply list_elem_of_In, list_elem_of_fmap in Hx as ([k x'] & -> & Hkx).
    apply list_elem_of_fmap. exists (k, x'). split; [done|].
    by apply (jsmap_elem_delete n k x' (channels w) (cinv_keys _ _ Hw)) in Hkx as [? _].
Qed.

Lemma selection_shown_setVisibility D this visible w :
  client_inv D w → (this ∈ getChannels w → this ∉ D) →
  selection_shown w → selection_shown (setVisibility this visible w).
Proof.
  intros Hw Hthis Hs.
  destruct (objects w !! this) as [o|] eqn:Ho.
  2: { unfold setVisibility. by rewrite Ho. }
  unfold setVisibility. rewrite Ho.
  destruct (client_emitters _ _ _ _ Hw Ho) as [(Hin & _ & -> & _)|(Hnin & -> & _)];
    cbn [foldl].
  - destruct visible.
    + unfold onVisibilityChange, selection_shown. simpl.
      apply elem_of_getVisibleChannels. split; [done|].
      unfold isVisible. simpl. by rewrite list_lookup_alter_eq, Ho.
    + pose proof (getVisibleChannels_hide w this o Ho) as Hvis.
      unfold onVisibilityChange, selection_shown, selectedChannel in *. simpl.
      destruct (decide (Some this = selectedChannelValue w)) as [Heq|Hne]; simpl.
      * apply head_filter_shown.
      * change (getVisibleChannels (emit (VisibilityChange this false)
                  (update_object this (with_visible false) w)))
          with (getVisibleChannels (update_object this (with_visible false) w)).
        rewrite Hvis. destruct (selectedChannelValue w) as [s|].
        -- apply list_elem_of_In, filter_In. split; [by apply list_elem_of_In|].
           apply bool_decide_eq_true. congruence.
        -- by rewrite Hs.
  - assert (this ∉ getChannels w) as Hout by (intros Hin; apply Hnin; auto).
    unfold selection_shown, selectedChannel in *. simpl.
    rewrite (getVisibleChannels_ext w); [done|done|].
    intros i Hi. unfold isVisible. simpl. rewrite list_lookup_alter_ne; [done|congruence].
Qed.

Lemma selection_shown_dispose this w : selection_shown w → selection_shown (dispose this w).
Proof.
  intros Hs. unfold selection_shown, selectedChannel in *. simpl.
  rewrite (getVisibleChannels_ext w); [done|done|].
  intros i _. unfold isVisible, dispose. simpl. rewrite list_lookup_alter.
  case_decide; [subst|done]. by destruct (objects w !! i).
Qed.

Lemma selection_shown_quiet w w' :
  same_wiring w w' → same_shape w w' → selectedChannelValue w' = selectedChannelValue w →
  selection_shown w → selection_shown w'.
Proof.
  intros Hq Hsh Hsel Hs. unfold selection_shown, selectedChannel in *.
  rewrite Hsel, (getVisibleChannels_ext w); [done|apply Hq|].
  intros i _. by apply same_shape_isVisible.
Qed.

Lemma selection_shown_call D c w :
  client_inv D w → selection_shown w → keeps_shown D w c → selection_shown (call c w).
Proof.
  intros Hw Hs Hc.
  pose proof (quiet_call c w) as Hq. pose proof (quiet_call_shape c w) as Hsh.
  destruct c as [n|n|s|s| | |this [v|l]|this|this v|this|this|m|a x];
    try (by apply (selection_shown_quiet w); [apply Hq|apply Hsh|apply Hq|]).
  - by apply (selection_shown_getChannel D).
  - by apply (selection_shown_deleteChannel D).
  - unfold selection_shown. simpl. by destruct s.
  - by apply (selection_shown_setVisibility D).
Qed.

Lemma reachable_shown_client D w : reachable_shown D w → reachable_client D w.
Proof. induction 1; by constructor. Qed.

Lemma reachable_shown_selection_shown D w : reachable_shown D w → selection_shown w.
Proof.
  induction 1 as [m st wn|D w c Hr IH Hc|D w this Hr IH Hlt]; [done| |].
  - apply (selection_shown_call D); [|done..].
    by apply reachable_client_inv, reachable_shown_client.
  - by apply selection_shown_dispose.
Qed.

(** X6: as long as the setter of [selectedChannel] is only given visible
    channels of the registry (or [undefined] when none is visible), and
    [setVisibility] is not called on a channel of the registry after the
    client has called [dispose()] on it, after every call the selection is a
    visible channel of the registry, and there is no selection only when no
    channel of the registry is visible. *)
Theorem X6_selection_is_visible (D : list ref) (w : World) :
  reachable_shown D w →
  match selectedChannel w with
  | Some c => c ∈ getChannels w ∧ isVisible c w = true
  | None => ∀ c, c ∈ getChannels w → isVisible c w = false
  end.
Proof.
  intros Hs%reachable_shown_selection_shown.
  unfold selection_shown in Hs. destruct (selectedChannel w) as [c|].
  - by apply elem_of_getVisibleChannels.
  - intros c Hc. destruct (isVisible c w) eqn:Hv; [|done].
    assert (c ∈ getVisibleChannels w) as Hin by by apply elem_of_getVisibleChannels.
    rewrite Hs in Hin. by apply elem_of_nil in Hin.
Qed.

Lemma X6_selection_is_visible_witness :
  let w := call (SetVisibility 0 false)
             (dispose 1 (call (GetChannel "two") (call (GetChannel "one") (init 1000 None "")))) in
  selectedChannel w = Some 1 ∧ 1 ∈ getChannels w ∧ isVisible 1 w = true.
Proof.
  intros w. split; [reflexivity|].
  apply (X6_selection_is_visible [1] w).
  apply reachable_shown_call.
  - apply (reachable_shown_dispose [] _ 1); [|vm_compute; lia].
    repeat (apply reachable_shown_call; [|exact I]). apply reachable_shown_init.
  - intros _ Hin. apply list_elem_of_singleton in Hin. discriminate.
Defined.

(** ** Every channel has a [lines] array of its own *)

Lemma own_lines_same_lines w w' :
  (∀ i, lines <$> objects w' !! i = lines <$> objects w !! i) →
  length (arrays w) ≤ length (arrays w') →
  own_lines w → own_lines w'.
Proof.
  intros Hl Hlen [H1 H2].
  assert (Hback : ∀ c o', objects w' !! c = Some o' →
                          ∃ o, objects w !! c = Some o ∧ lines o = lines o').
  { intros c o' Ho'. specialize (Hl c). rewrite Ho' in Hl. simpl in Hl.
    destruct (objects w !! c) as [o|]; simpl in Hl; [|done].
    exists o. split; [done|]. by injection Hl. }
  split.
  - intros c o' (o & Ho & <-)%Hback. specialize (H1 c o Ho). lia.
  - intros c c' o1 o2 (o & Ho & <-)%Hback (o' & Ho' & <-)%Hback. by apply H2.
Qed.

Lemma same_shape_lines w w' i :
  same_shape w w' → lines <$> objects w' !! i = lines <$> objects w !! i.
Proof.
  intros [H _]. specialize (H i).
  destruct (objects w' !! i) as [o'|], (objects w !! i) as [o|]; simpl in *; try done.
  by injection H as _ -> _ _ _.
Qed.

(** The objects and arrays after [deleteChannel] of a channel of the
    registry. *)
Lemma deleteChannel_objects n c w o :
  wiring_inv w → JSMap.get n (channels w) = Some c → objects w !! c = Some o →
  objects (deleteChannel n w) =
    <[c := with_lockedChangeEmitter (λ _, []) (with_visibilityChangeEmitter (λ _, []) o)]>
      (objects w) ∧
  arrays (deleteChannel n w) = arrays w ∧
  channels (deleteChannel n w) = JSMap.delete n (channels w).
Proof.
  intros Hw Hget Ho.
  destruct (inv_wired _ Hw n c (jsmap_get_elem _ _ _ Hget)) as (o' & Ho' & _ & _ & _ & Ht).
  assert (o' = o) as -> by congruence.
  rewrite (deleteChannel_eq n c w o) by done.
  unfold fire_channelDelete. simpl.
  destruct (selectedChannelValue w); [|done]. by case_decide.
Qed.

Lemma own_lines_call c w : wiring_inv w → own_lines w → own_lines (call c w).
Proof.
  intros Hw Hown. pose proof (quiet_call_shape c w) as Hsh.
  destruct c as [n|n|s|s| | |this [v|l]|this|this v|this|this|m|a x];
    try (by apply (own_lines_same_lines w);
           [intros i; apply same_shape_lines, Hsh|apply Hsh|]).
  - simpl. destruct (JSMap.get n (channels w)) as [c|] eqn:Hget.
    { unfold getChannel. by rewrite Hget. }
    pose proof (inv_disposed _ Hw n (proj1 (jsmap_get_None _ _) Hget)) as Hd.
    rewrite getChannel_new by done. simpl. destruct Hown as [H1 H2]. split; simpl.
    + intros c o [Ho|[_ Ho]]%lookup_app_Some; rewrite length_app; simpl.
      * specialize (H1 c o Ho). lia.
      * apply list_lookup_singleton_Some in Ho as [_ <-]. simpl. lia.
    + intros c c' o o' [Ho|[Hge Ho]]%lookup_app_Some [Ho'|[Hge' Ho']]%lookup_app_Some Heq.
      * by eapply H2.
      * apply list_lookup_singleton_Some in Ho' as [_ <-]. simpl in Heq.
        specialize (H1 c o Ho). lia.
      * apply list_lookup_singleton_Some in Ho as [_ <-]. simpl in Heq.
        specialize (H1 c' o' Ho'). lia.
      * apply list_lookup_singleton_Some in Ho as [? _].
        apply list_lookup_singleton_Some in Ho' as [? _]. lia.
  - simpl. destruct (JSMap.get n (channels w)) as [c|] eqn:Hget.
    2: { unfold deleteChannel. by rewrite Hget. }
    destruct (inv_wired _ Hw n c (jsmap_get_elem _ _ _ Hget)) as (o & Ho & _).
    destruct (deleteChannel_objects n c w o Hw Hget Ho) as (Hobj & Harr & _).
    apply (own_lines_same_lines w); [|by rewrite Harr|done].
    intros i. rewrite Hobj. destruct (decide (i = c)) as [->|Hne].
    + rewrite list_lookup_insert_eq by (by eapply lookup_lt_Some). by rewrite Ho.
    + by rewrite list_lookup_insert_ne.
  - by apply (own_lines_same_lines w).
  - simpl. destruct (objects w !! this) as [o|] eqn:Ho.
    2: { unfold setVisibility. by rewrite Ho. }
    assert (Hl : ∀ i, lines <$> objects (update_object this (with_visible v) w) !! i
                      = lines <$> objects w !! i).
    { intros i. simpl. rewrite list_lookup_alter. case_decide; [subst|done].
      by rewrite Ho. }
    destruct (decide (this ∈ getChannels w)) as [Hin|Hnin].
    + rewrite (setVisibility_registered _ _ _ o) by done.
      unfold onVisibilityChange. destruct v; [|case_decide];
        by apply (own_lines_same_lines w).
    + rewrite (setVisibility_retired _ _ _ o) by done.
      by apply (own_lines_same_lines w).
Qed.

Lemma reachable_any_own_lines w : reachable_any w → own_lines w.
Proof.
  induction 1 as [m st wn|w c Hr IH].
  - split; intros c; intros; simpl in *; by rewrite lookup_nil in *.
  - apply own_lines_call; [by apply reachable_any_wiring_inv|done].
Qed.

Lemma buffer_calls_frame c o w :
  objects w !! c = Some o →
  ∀ w', (w' = clear c w ∨ ∃ cc, w' = call_channel c cc w) →
  (∀ i, i ≠ c → objects w' !! i = objects w !! i) ∧
  (∀ a, a ≠ lines o → arrays w' !! a = arrays w !! a).
Proof.
  intros Ho w' [->|[[v|l] ->]]; simpl.
  - unfold clear. rewrite Ho. simpl. split.
    + intros i Hi. by rewrite list_lookup_alter_ne.
    + intros a Ha. by rewrite list_lookup_alter_ne.
  - unfold append. rewrite Ho. split.
    + intros i Hi. destruct (currentLine o); simpl; by rewrite list_lookup_alter_ne.
    + intros a Ha. by destruct (currentLine o).
  - unfold appendLine. rewrite Ho. split.
    + intros i Hi. destruct (currentLine o); simpl; case_match; simpl;
        by rewrite ?list_lookup_alter_ne.
    + intros a Ha. destruct (currentLine o); simpl; case_match; simpl;
        by rewrite ?list_lookup_alter_ne.
Qed.

(** X7: [append], [appendLine] and [clear] on one channel change nothing of
    any other channel: the lines and the current line of every other channel
    are as before, and so are the registry and the selection. *)
Theorem X7_buffers_are_separate (w : World) (c c' : ref) :
  reachable_any w → c ≠ c' →
  ∀ w', (w' = clear c w ∨ ∃ cc, w' = call_channel c cc w) →
  view c' w' = view c' w ∧ channels w' = channels w ∧
  selectedChannel w' = selectedChannel w.
Proof.
  intros Hr Hne w' Hw'.
  assert (Hq : channels w' = channels w ∧ selectedChannel w' = selectedChannel w).
  { destruct Hw' as [->|[cc ->]].
    - pose proof (quiet_call (ClearChannel c) w) as [Hs ?]. split; [apply Hs|done].
    - pose proof (quiet_call (OnChannel c cc) w) as [Hs ?]. split; [apply Hs|done]. }
  split; [|done].
  destruct (objects w !! c) as [o|] eqn:Ho.
  2: { destruct Hw' as [->|[[v|l] ->]]; simpl;
         [unfold clear|unfold append|unfold appendLine]; by rewrite Ho. }
  destruct (buffer_calls_frame c o w Ho w' Hw') as [Hobj Harr].
  unfold view. rewrite Hobj by done.
  destruct (objects w !! c') as [o'|] eqn:Ho'; simpl; [|done].
  rewrite Harr; [done|].
  intros Heq. apply Hne. symmetry.
  by apply (proj2 (reachable_any_own_lines w Hr) c' c o' o).
Qed.

Lemma X7_buffers_are_separate_witness :
  let w := call (GetChannel "two") (call (GetChannel "one") (init 1 None "")) in
  view 1 (appendLine 0 "a" w) = view 1 w.
Proof.
  intros w.
  assert (Hr : reachable_any w) by (repeat apply reachable_any_call; apply reachable_any_init).
  assert (Hne : 0 ≠ 1) by lia.
  pose proof (X7_buffers_are_separate w 0 1 Hr Hne (appendLine 0 "a" w)
                (or_intror (ex_intro _ (CallAppendLine "a") eq_refl))) as H.
  exact (proj1 H).
Defined.

(** ** A deleted channel, and the channel created again under its name *)

Lemma deleted_not_registered n c w :
  wiring_inv w → JSMap.get n (channels w) = Some c →
  (c ∉ JSMap.values (JSMap.delete n (channels w))) ∧
  JSMap.get n (JSMap.delete n (channels w)) = None.
Proof.
  intros Hw Hget. pose proof (jsmap_get_elem _ _ _ Hget) as Hin.
  destruct (inv_wired _ Hw n c Hin) as (o & Ho & Hn & _). split.
  - intros ([k c'] & -> & [Hkc Hne]%jsmap_elem_delete)%list_elem_of_fmap; [|apply Hw].
    simpl in *. destruct (inv_wired _ Hw k c' Hkc) as (o' & Ho' & Hn' & _). congruence.
  - apply jsmap_get_None.
    intros ([k c'] & -> & [Hkc Hne]%jsmap_elem_delete)%list_elem_of_fmap; [|apply Hw].
    done.
Qed.

(** X8: after [deleteChannel(n)] the deleted channel object is out of the
    registry and detached from the manager: it keeps its lines, and
    [setVisibility] and [toggleLocked] on it only change its own flag and
    fire its own event, so they never change the selection, the visible
    channels or the registry, and the manager re-broadcasts nothing. *)
Theorem X8_deleted_channel_is_detached (w : World) (n : string) (c : ref) :
  reachable_any w → JSMap.get n (channels w) = Some c →
  let w' := deleteChannel n w in
  (c ∉ getChannels w') ∧
  view c w' = view c w ∧
  (∀ v, setVisibility c v w' =
        emit (VisibilityChange c v) (update_object c (with_visible v) w')) ∧
  toggleLocked c w' =
    emit (LockedChange c (negb (isLocked c w')))
      (update_object c (with_locked (negb (isLocked c w'))) w').
Proof.
  intros Hr Hget w'.
  pose proof (reachable_any_wiring_inv _ Hr) as Hw.
  assert (Hw' : wiring_inv w') by (apply (wiring_inv_call (DeleteChannel n)); done).
  destruct (inv_wired _ Hw n c (jsmap_get_elem _ _ _ Hget)) as (o & Ho & _).
  pose proof (lookup_lt_Some _ _ _ Ho) as Hlt.
  destruct (deleteChannel_objects n c w o Hw Hget Ho) as (Hobj & Harr & Hch).
  assert (Hnin : c ∉ getChannels w').
  { unfold getChannels. subst w'. rewrite Hch.
    apply (proj1 (deleted_not_registered n c w Hw Hget)). }
  assert (Ho' : objects w' !! c =
                Some (with_lockedChangeEmitter (λ _, [])
                        (with_visibilityChangeEmitter (λ _, []) o))).
  { subst w'. rewrite Hobj. by apply list_lookup_insert_eq. }
  split_and!.
  - done.
  - unfold view. subst w'. by rewrite Ho', Harr, Ho.
  - intros v. by apply (setVisibility_retired c v w' _ Hw' Ho').
  - unfold toggleLocked, isLocked. by rewrite Ho'.
Qed.

Lemma X8_deleted_channel_is_detached_witness :
  let w := call (GetChannel "two") (call (GetChannel "one") (init 1000 None "")) in
  selectedChannel (deleteChannel "one" w) = Some 1 ∧
  selectedChannel (setVisibility 0 true (deleteChannel "one" w)) = Some 1.
Proof.
  intros w. split; [reflexivity|].
  assert (Hr : reachable_any w) by (repeat apply reachable_any_call; apply reachable_any_init).
  assert (Hg : JSMap.get "one" (channels w) = Some 0) by reflexivity.
  pose proof (X8_deleted_channel_is_detached w "one" 0 Hr Hg) as (_ & _ & H & _).
  rewrite H. reflexivity.
Defined.

(** X9: [getChannel(n)] after [deleteChannel(n)] constructs a new channel
    object, not the deleted one: it is empty and visible and goes to the end
    of the registry, and the lines of the deleted channel stay with the
    deleted object. *)
Theorem X9_recreated_channel_is_new (w : World) (n : string) (c : ref) :
  reachable_any w → JSMap.get n (channels w) = Some c →
  let w1 := deleteChannel n w in
  let c2 := (getChannel n w1).1 in
  let w2 := (getChannel n w1).2 in
  c2 ≠ c ∧ (c2 ∉ getChannels w) ∧
  channels w2 = JSMap.delete n (channels w) ++ [(n, c2)] ∧
  view c2 w2 = Some ([], None) ∧ isVisible c2 w2 = true ∧
  view c w2 = view c w.
Proof.
  intros Hr Hget w1 c2 w2.
  pose proof (reachable_any_wiring_inv _ Hr) as Hw.
  assert (Hr1 : reachable_any w1) by (apply (reachable_any_call w (DeleteChannel n)); done).
  pose proof (reachable_any_wiring_inv _ Hr1) as Hw1.
  destruct (inv_wired _ Hw n c (jsmap_get_elem _ _ _ Hget)) as (o & Ho & _).
  pose proof (lookup_lt_Some _ _ _ Ho) as Hlt.
  destruct (deleteChannel_objects n c w o Hw Hget Ho) as (Hobj & Harr & Hch).
  fold w1 in Hobj, Harr, Hch.
  assert (Hget1 : JSMap.get n (channels w1) = None).
  { rewrite Hch. apply (proj2 (deleted_not_registered n c w Hw Hget)). }
  pose proof (inv_disposed _ Hw1 n (proj1 (jsmap_get_None _ _) Hget1)) as Hd.
  assert (Hlen : length (objects w1) = length (objects w)).
  { by rewrite Hobj, length_insert. }
  subst c2 w2. rewrite getChannel_new by done. simpl. rewrite Hlen, Hch, Harr.
  split_and!.
  - lia.
  - intros Hin%(registry_allocated _ _ Hw). lia.
  - done.
  - unfold view. simpl. rewrite <- Hlen at 1. rewrite lookup_alloc. simpl.
    by rewrite lookup_alloc.
  - unfold isVisible. simpl. rewrite <- Hlen. by rewrite lookup_alloc.
  - unfold view. simpl. rewrite lookup_app_l by lia. rewrite Hobj.
    rewrite list_lookup_insert_eq by done. simpl. rewrite Ho. simpl.
    rewrite lookup_app_l; [done|].
    by apply (proj1 (reachable_any_own_lines w Hr) c o).
Qed.

Lemma X9_recreated_channel_is_new_witness :
  let w := call (OnChannel 0 (CallAppendLine "old")) (call (GetChannel "a") (init 1000 None "")) in
  (getChannel "a" (deleteChannel "a" w)).1 ≠ 0.
Proof.
  intros w.
  assert (Hr : reachable_any w) by (repeat apply reachable_any_call; apply reachable_any_init).
  assert (Hg : JSMap.get "a" (channels w) = Some 0) by reflexivity.
  exact (proj1 (X9_recreated_channel_is_new w "a" 0 Hr Hg)).
Defined.

(** ** What the manager announces *)

Lemma quiet_call_fired c w :
  match c with
  | GetChannel _ | DeleteChannel _ | SelectChannel _ | SetVisibility _ _ => True
  | _ => ∃ evs, fired (call c w) = fired w ++ evs
  end.
Proof.
  assert (Htl : ∀ this, ∃ evs, fired (toggleLocked this w) = fired w ++ evs).
  { intros this. destruct (objects w !! this) as [o|] eqn:Ho.
    - destruct (toggleLocked_eq _ _ _ Ho) as [evs ->]. by eexists.
    - rewrite toggleLocked_dangling by done. exists []. by rewrite app_nil_r. }
  assert (Hnil : ∃ evs, fired w = fired w ++ evs) by (exists []; by rewrite app_nil_r).
  destruct c as [n|n|s|s| | |this [v|l]|this|this v|this|this|m|a x]; simpl; try done.
  - unfold toggleScrollLock. destruct s; [apply Htl|].
    destruct (selectedChannel w); [apply Htl|done].
  - by destruct (onStart_fields w) as (s & -> & _).
  - unfold append. destruct (objects w !! this) as [o|]; [|done].
    destruct (currentLine o); by eexists.
  - unfold appendLine. destruct (objects w !! this) as [o|]; [|done].
    destruct (currentLine o); simpl; case_match; by eexists.
  - unfold clear. destruct (objects w !! this) as [o|]; [|done]. by eexists.
  - unfold getLines. destruct (objects w !! this) as [o|]; [|done].
    by destruct (currentLine o).
Qed.

(** X10: the record of fired events only grows, and no call changes the
    registry or the selection silently: a call after which the registry or
    the selection differs has fired the list-or-selection event, and one
    after which the selection differs has fired the selection event as
    well. *)
Theorem X10_changes_are_announced (w : World) (c : Call) :
  reachable_any w →
  ∃ evs, fired (call c w) = fired w ++ evs ∧
    (channels (call c w) ≠ channels w ∨ selectedChannel (call c w) ≠ selectedChannel w →
     ListOrSelectionChange ∈ evs) ∧
    (selectedChannel (call c w) ≠ selectedChannel w → SelectedChannelChange ∈ evs).
Proof.
  intros Hw%reachable_any_wiring_inv.
  pose proof (quiet_call c w) as Hq. pose proof (quiet_call_fired c w) as Hf.
  assert (Hsame : ∀ w', w' = w → ∃ evs, fired w' = fired w ++ evs ∧
      (channels w' ≠ channels w ∨ selectedChannel w' ≠ selectedChannel w →
       ListOrSelectionChange ∈ evs) ∧
      (selectedChannel w' ≠ selectedChannel w → SelectedChannelChange ∈ evs)).
  { intros w' ->. exists []. rewrite app_nil_r. split_and!; [done|intros [?|?]; done|done]. }
  destruct c as [n|n|s|s| | |this [v|l]|this|this v|this|this|m|a x].
  4-9,11-14:
    (destruct Hf as [evs Hevs]; destruct Hq as [Hch Hsel]; exists evs;
     split_and!; [exact Hevs|intros [H|H]; exfalso; apply H; [apply Hch|apply Hsel]
                 |intros H; exfalso; apply H, Hsel]).
  - simpl. destruct (JSMap.get n (channels w)) as [c|] eqn:Hget.
    { apply Hsame. unfold getChannel. by rewrite Hget. }
    pose proof (inv_disposed _ Hw n (proj1 (jsmap_get_None _ _) Hget)) as Hd.
    rewrite getChannel_new by done. unfold selectedChannel. simpl.
    eexists. split_and!; [done|..].
    + intros _. apply elem_of_cons. right. apply list_elem_of_here.
    + intros Hne. destruct (selectedChannelValue w); [done|].
      do 2 (apply elem_of_cons; right). apply list_elem_of_here.
  - simpl. destruct (JSMap.get n (channels w)) as [c|] eqn:Hget.
    2: { unfold deleteChannel. rewrite Hget. exists []. rewrite app_nil_r.
         split_and!; [done|intros [?|?]; done|done]. }
    destruct (inv_wired _ Hw n c (jsmap_get_elem _ _ _ Hget)) as (o & Ho & _ & _ & _ & Ht).
    rewrite (deleteChannel_eq n c w o) by done.
    unfold fire_channelDelete, selectedChannel. simpl.
    destruct (selectedChannelValue w) as [s|] eqn:Hs; [case_decide|]; simpl;
      rewrite <- ?app_assoc; (eexists; split_and!; [done|..]).
    + intros _. apply elem_of_cons. right. apply list_elem_of_here.
    + intros _. do 2 (apply elem_of_cons; right). apply list_elem_of_here.
    + intros _. apply elem_of_cons. right. apply list_elem_of_here.
    + done.
    + intros _. apply elem_of_cons. right. apply list_elem_of_here.
    + done.
  - simpl. rewrite <- app_assoc. eexists. split_and!; [done|..].
    + intros _. apply elem_of_cons. right. apply list_elem_of_here.
    + intros _. apply list_elem_of_here.
  - simpl. destruct (objects w !! this) as [o|] eqn:Ho.
    2: { apply Hsame. unfold setVisibility. by rewrite Ho. }
    destruct (decide (this ∈ getChannels w)) as [Hin|Hnin].
    + rewrite (setVisibility_registered _ _ _ o) by done.
      unfold onVisibilityChange, selectedChannel. simpl.
      destruct v; [|case_decide]; simpl; rewrite <- ?app_assoc;
        (eexists; split_and!; [done|..]).
      * intros _. do 2 (apply elem_of_cons; right). apply list_elem_of_here.
      * intros _. apply elem_of_cons. right. apply list_elem_of_here.
      * intros _. do 2 (apply elem_of_cons; right). apply list_elem_of_here.
      * intros _. apply elem_of_cons. right. apply list_elem_of_here.
      * intros [?|?]; done.
      * done.
    + rewrite (setVisibility_retired _ _ _ o) by done. simpl.
      eexists. split_and!; [done|intros [?|?]; done|done].
Qed.

Lemma X10_changes_are_announced_witness :
  ∃ evs, fired (call (GetChannel "a") (init 1000 None "")) = fired (init 1000 None "") ++ evs ∧
         ListOrSelectionChange ∈ evs.
Proof.
  destruct (X10_changes_are_announced (init 1000 None "") (GetChannel "a")
              (reachable_any_init 1000 None "")) as (evs & Hf & Hl & _).
  exists evs. split; [exact Hf|]. apply Hl. left. vm_compute. discriminate.
Defined.

(** X11: [getChannel] never disturbs what is there: the channels already
    registered keep their place and every existing object stays as it is; a
    selection that exists is kept; the channel is selected only when it is
    newly constructed while nothing is selected, and looking up an existing
    channel never selects it. *)
Theorem X11_getChannel_keeps_selection (w : World) (n : string) :
  reachable_any w →
  let c := (getChannel n w).1 in
  let w' := (getChannel n w).2 in
  (∀ i o, objects w !! i = Some o → objects w' !! i = Some o) ∧
  (∀ s, selectedChannel w = Some s → selectedChannel w' = Some s) ∧
  (JSMap.get n (channels w) = None →
     getChannels w' = getChannels w ++ [c] ∧
     (selectedChannel w = None → selectedChannel w' = Some c)) ∧
  (JSMap.get n (channels w) ≠ None → w' = w).
Proof.
  intros Hw%reachable_any_wiring_inv c w'. subst c w'.
  destruct (JSMap.get n (channels w)) as [c|] eqn:Hget.
  { unfold getChannel. rewrite Hget. simpl. split_and!; done. }
  pose proof (inv_disposed _ Hw n (proj1 (jsmap_get_None _ _) Hget)) as Hd.
  rewrite getChannel_new by done. unfold selectedChannel, getChannels, JSMap.values. simpl.
  split_and!.
  - intros i o Ho. by apply lookup_app_l_Some.
  - intros s ->. done.
  - intros _. split; [by rewrite fmap_app|]. by intros ->.
  - done.
Qed.

Lemma X11_getChannel_keeps_selection_witness :
  let w := call (GetChannel "one") (init 1000 None "") in
  selectedChannel (getChannel "two" w).2 = Some 0.
Proof.
  intros w.
  assert (Hr : reachable_any w) by (repeat apply reachable_any_call; apply reachable_any_init).
  exact (proj1 (proj2 (X11_getChannel_keeps_selection w "two" Hr)) 0 eq_refl).
Defined.

Lemma shown_name w c :
  wiring_inv w → c ∈ getChannels w → JSMap.get (name_of c w) (channels w) = Some c.
Proof.
  intros Hw ([k c'] & -> & Hkc)%list_elem_of_fmap. simpl.
  destruct (inv_wired _ Hw k c' Hkc) as (o & Ho & Hn & _).
  unfold name_of. rewrite Ho. simpl. rewrite Hn.
  apply jsmap_elem_get; [apply Hw|done].
Qed.

Lemma elem_of_options w n :
  n ∈ (renderChannelSelector w).1 →
  (n = NONE ∧ getVisibleChannels w = []) ∨
  ∃ c, c ∈ getVisibleChannels w ∧ name_of c w = n.
Proof.
  unfold renderChannelSelector. cbn [fst]. rewrite length_map.
  destruct (getVisibleChannels w) as [|c0 l] eqn:Hv.
  - intros ->%list_elem_of_singleton. by left.
  - rewrite decide_False by done.
    intros (c & Hc & Hin)%list_elem_of_In%in_map_iff. right.
    exists c. split; [by apply list_elem_of_In|done].
Qed.

(** X12: choosing an option of the selector.  A name other than the
    placeholder that the selector shows is the name of a visible channel of
    the registry: [changeChannel] selects that channel and constructs
    nothing, and the selector then shows the same options with the chosen
    name as its value.  The placeholder changes nothing, also when a channel
    has that very name. *)
Theorem X12_changeChannel_selects_shown (w : World) (n : string) :
  reachable_any w →
  n ∈ (renderChannelSelector w).1 →
  (n ≠ NONE →
     ∃ c, JSMap.get n (channels w) = Some c ∧ c ∈ getVisibleChannels w ∧
          changeChannel n w = set_selectedChannel (Some c) w ∧
          renderChannelSelector (changeChannel n w) = ((renderChannelSelector w).1, n)) ∧
  (n = NONE → changeChannel n w = w).
Proof.
  intros Hw%reachable_any_wiring_inv Hn. split.
  - intros Hne. destruct (elem_of_options _ _ Hn) as [[? _]|(c & Hc & Hname)]; [done|].
    pose proof Hc as [Hreg _]%elem_of_getVisibleChannels.
    pose proof (shown_name _ _ Hw Hreg) as Hget. rewrite Hname in Hget.
    assert (changeChannel n w = set_selectedChannel (Some c) w) as Hch.
    { unfold changeChannel. rewrite decide_True by done.
      unfold getChannel. by rewrite Hget. }
    exists c. split_and!; [done..|]. rewrite Hch, <- Hname. reflexivity.
  - intros ->. unfold changeChannel. by rewrite decide_False by (intros H; by apply H).
Qed.

Lemma X12_changeChannel_selects_shown_witness :
  let w := call (GetChannel "two") (call (GetChannel "one") (init 1000 None "")) in
  selectedChannel w = Some 0 ∧
  renderChannelSelector (changeChannel "two" w) = (["one"; "two"], "two").
Proof.
  intros w. split; [reflexivity|].
  assert (Hr : reachable_any w) by (repeat apply reachable_any_call; apply reachable_any_init).
  assert (Hin : "two" ∈ (renderChannelSelector w).1)
    by (apply list_elem_of_further, list_elem_of_here).
  destruct (proj1 (X12_changeChannel_selects_shown w "two" Hr Hin))
    as (c & _ & _ & _ & Hrender); [discriminate|].
  exact Hrender.
Defined.

Lemma filter_sublist {A} (f : A → bool) (l : list A) : List.filter f l `sublist_of` l.
Proof.
  induction l as [|x l IH]; simpl; [done|].
  destruct (f x); [by apply sublist_skip|by apply sublist_cons].
Qed.

Lemma client_shown_name D w c :
  client_inv D w → c ∈ getChannels w → JSMap.get (name_of c w) (channels w) = Some c.
Proof.
  intros Hw ([k c'] & -> & Hkc)%list_elem_of_fmap. simpl.
  destruct (cinv_wired _ _ Hw k c' Hkc) as (o & Ho & Hn & _).
  unfold name_of. rewrite Ho. simpl. rewrite Hn.
  apply jsmap_elem_get; [apply Hw|done].
Qed.

Lemma NoDup_getChannels D w : client_inv D w → NoDup (getChannels w).
Proof.
  intros Hw. unfold getChannels, JSMap.values.
  pose proof (cinv_keys _ _ Hw) as Hk. unfold JSMap.keys in Hk.
  apply NoDup_fmap_2_strong; [|by eapply NoDup_fmap_1].
  intros [k c] [k' c'] Hin Hin' Heq. simpl in Heq. subst c'.
  destruct (cinv_wired _ _ Hw k c Hin) as (o & Ho & Hn & _).
  destruct (cinv_wired _ _ Hw k' c Hin') as (o' & Ho' & Hn' & _).
  congruence.
Qed.

(** X13: what the selector renders.  The options are never empty and never
    repeat a value (they are the keys of the [<option>] elements); with no
    visible channel the only option is the placeholder; and as long as the
    setter of [selectedChannel] is only given visible channels and
    [setVisibility] is not called on a channel of the registry after the
    client has disposed it, the value of the [<select>] is one of its
    options. *)
Theorem X13_selector_is_consistent (D : list ref) (w : World) :
  reachable_client D w →
  let options := (renderChannelSelector w).1 in
  let value := (renderChannelSelector w).2 in
  options ≠ [] ∧ NoDup options ∧
  (getVisibleChannels w = [] → options = [NONE]) ∧
  (reachable_shown D w → value ∈ options).
Proof.
  intros Hw%reachable_client_inv. cbv zeta.
  unfold renderChannelSelector. simpl. rewrite length_map.
  assert (NoDup (List.map (λ channel, name_of channel w) (getVisibleChannels w))) as Hnd.
  { apply (NoDup_fmap_2_strong (λ channel, name_of channel w)).
    - intros c c' [Hc _]%elem_of_getVisibleChannels [Hc' _]%elem_of_getVisibleChannels Heq.
      pose proof (client_shown_name _ _ _ Hw Hc) as H1.
      pose proof (client_shown_name _ _ _ Hw Hc') as H2.
      congruence.
    - eapply sublist_NoDup; [by apply (NoDup_getChannels D)|apply filter_sublist]. }
  assert (reachable_shown D w → selection_shown w) as Hshown
    by apply reachable_shown_selection_shown.
  unfold selection_shown in Hshown.
  destruct (getVisibleChannels w) as [|c0 l] eqn:Hv; simpl in *.
  - split_and!; [done|apply NoDup_singleton|done|].
    intros Hs%Hshown.
    destruct (selectedChannel w) as [c|]; [by apply elem_of_nil in Hs|].
    apply list_elem_of_here.
  - split_and!; [done|done|done|].
    intros Hs%Hshown.
    destruct (selectedChannel w) as [c|]; [|done].
    apply list_elem_of_In. apply (in_map (λ channel, name_of channel w) (c0 :: l)).
    by apply list_elem_of_In.
Qed.

Lemma X13_selector_is_consistent_witness :
  let w := call (SetVisibility 0 false)
             (dispose 1 (call (GetChannel "two") (call (GetChannel "one") (init 1000 None "")))) in
  renderChannelSelector w = (["two"], "two") ∧
  (renderChannelSelector w).2 ∈ (renderChannelSelector w).1.
Proof.
  intros w. split; [reflexivity|].
  assert (Hs : reachable_shown [1] w).
  { apply reachable_shown_call.
    - apply (reachable_shown_dispose [] _ 1); [|vm_compute; lia].
      repeat (apply reachable_shown_call; [|exact I]). apply reachable_shown_init.
    - intros _ Hin. apply list_elem_of_singleton in Hin. discriminate. }
  apply (X13_selector_is_consistent [1] w (reachable_shown_client _ _ Hs)). exact Hs.
Defined.

Lemma sample_tick_registered n c now w :
  JSMap.get n (channels w) = Some c →
  sample_tick n now w = appendLine c (n +:+ ": " +:+ now) w.
Proof. intros Hget. unfold sample_tick, getChannel. by rewrite Hget. Qed.

Lemma sample_ticks_registered n c nows w :
  JSMap.get n (channels w) = Some c →
  foldl (λ w now, sample_tick n now w) w nows =
  call_channel_all c (CallAppendLine ∘ (λ now, n +:+ ": " +:+ now) <$> nows) w.
Proof.
  unfold call_channel_all. revert w. induction nows as [|now nows IH]; intros w Hget; [done|].
  cbn [foldl fmap list_fmap compose call_channel].
  rewrite (sample_tick_registered n c) by done.
  apply IH. by rewrite (proj1 (appendLine_same_wiring c _ w)).
Qed.

Lemma completed_lines_appendLine (ls : list string) :
  completed_lines None (CallAppendLine <$> ls) = ls ∧
  trailing None (CallAppendLine <$> ls) = None.
Proof.
  induction ls as [|l ls [IH1 IH2]]; [done|].
  cbn [fmap list_fmap completed_lines trailing]. split; [by f_equal|done].
Qed.

(** X14: the interval callback of the sample command.  While the channel is
    registered, every tick appends one line to that same channel and
    constructs nothing; when it is not, the first tick constructs it, at the
    end of the registry, and after any number of ticks the channel holds the
    last [maxChannelHistory] of the lines the ticks wrote, in order. *)
Theorem X14_sample_ticks (w : World) (n : string) (nows : list string) :
  reachable_any w →
  let line := λ now, n +:+ ": " +:+ now in
  let w' := foldl (λ w now, sample_tick n now w) w nows in
  (∀ c, JSMap.get n (channels w) = Some c →
        w' = call_channel_all c (CallAppendLine ∘ line <$> nows) w) ∧
  (JSMap.get n (channels w) = None → nows ≠ [] →
     let c := length (objects w) in
     JSMap.get n (channels w') = Some c ∧
     getChannels w' = getChannels w ++ [c] ∧
     lines_read c w' = last_n (Z.to_nat (maxChannelHistory w)) (line <$> nows)).
Proof.
  intros Hw%reachable_any_wiring_inv line w'. split.
  { intros c Hget. by apply sample_ticks_registered. }
  intros Hget Hne c. destruct nows as [|now nows]; [done|]. clear Hne.
  pose proof (inv_disposed _ Hw n (proj1 (jsmap_get_None _ _) Hget)) as Hd.
  pose proof (getChannel_new n w Hget Hd) as Hnew.
  set (w1 := (getChannel n w).2).
  assert (Hc1 : channels w1 = channels w ++ [(n, c)]) by (subst w1; by rewrite Hnew).
  assert (Hm1 : maxChannelHistory w1 = maxChannelHistory w) by (subst w1; by rewrite Hnew).
  assert (Hv1 : view c w1 = Some ([], None)).
  { subst w1 c. rewrite Hnew. unfold view. simpl. rewrite lookup_alloc. simpl.
    by rewrite lookup_alloc. }
  assert (Hg1 : JSMap.get n (channels w1) = Some c).
  { rewrite Hc1, <- (jsmap_set_absent n c) by done. apply jsmap_get_set. }
  assert (w' = call_channel_all c (CallAppendLine ∘ line <$> now :: nows) w1) as ->.
  { subst w'. cbn [foldl]. unfold call_channel_all.
    cbn [foldl fmap list_fmap compose call_channel].
    replace (sample_tick n now w) with (appendLine c (line now) w1).
    - apply sample_ticks_registered.
      by rewrite (proj1 (appendLine_same_wiring c _ w1)).
    - unfold sample_tick. subst w1 c line. by rewrite Hnew. }
  assert (Hsw : ∀ cs, channels (call_channel_all c cs w1) = channels w1).
  { intros cs. unfold call_channel_all. generalize w1.
    induction cs as [|[v|l] cs IH]; intros w0; [done|..]; cbn [foldl]; rewrite IH.
    - apply (append_same_wiring c v w0).
    - apply (appendLine_same_wiring c l w0). }
  split_and!.
  - by rewrite Hsw.
  - unfold getChannels, JSMap.values. by rewrite Hsw, Hc1, fmap_app.
  - rewrite (lines_read_view c _ (last_n (Z.to_nat (maxChannelHistory w)) (line <$> now :: nows)) None).
    { by rewrite app_nil_r. }
    rewrite (call_channel_all_view c _ w1 [] None Hv1) by (simpl; lia).
    rewrite Hm1, list_fmap_compose.
    by destruct (completed_lines_appendLine (line <$> now :: nows)) as [-> ->].
Qed.

Lemma X14_sample_ticks_witness :
  let w := init 2 None "" in
  lines_read 0 (foldl (λ w now, sample_tick "one" now w) w ["1"; "2"; "3"]) =
  ["one: 2"; "one: 3"].
Proof.
  intros w.
  pose proof (proj2 (X14_sample_ticks w "one" ["1"; "2"; "3"] (reachable_any_init 2 None ""))
                eq_refl ltac:(discriminate)) as H.
  exact (proj2 (proj2 H)).
Defined.

Lemma indexOf_absent xs x : x ∉ xs → indexOf xs x = (-1)%Z.
Proof.
  induction xs as [|y xs IH]; [done|].
  intros [Hne Hnin]%not_elem_of_cons. simpl.
  rewrite decide_False by done. rewrite IH by done. done.
Qed.

Lemma indexOf_present xs x :
  x ∈ xs →
  ∃ l1 l2, xs = l1 ++ x :: l2 ∧ (x ∉ l1) ∧ indexOf xs x = Z.of_nat (length l1).
Proof.
  induction xs as [|y xs IH]; [by intros ?%elem_of_nil|].
  intros Hin. simpl. destruct (decide (y = x)) as [->|Hne].
  - exists [], xs. split_and!; [done|apply not_elem_of_nil|done].
  - apply elem_of_cons in Hin as [?|Hin]; [done|].
    destruct (IH Hin) as (l1 & l2 & -> & Hnin & ->).
    exists (y :: l1), l2. split_and!; [done|..].
    + apply not_elem_of_cons. by split.
    + rewrite decide_False by lia. simpl. lia.
Qed.

Lemma splice_one {A} (l1 l2 : list A) (x : A) :
  JSArray.splice (l1 ++ x :: l2) (length l1) 1 = l1 ++ l2.
Proof.
  unfold JSArray.splice. rewrite length_app. simpl.
  replace (length l1 `min` (length l1 + S (length l2))) with (length l1) by lia.
  replace (Z.to_nat (Z.min (Z.max 1 0) (Z.of_nat (length l1 + S (length l2) - length l1))))
    with 1 by lia.
  rewrite take_app_length, drop_app_add. done.
Qed.

Lemma elem_of_ScrollLockToolbarItem_new w y :
  y ∈ ScrollLockToolbarItem_new w ↔
  ∃ x, x ∈ getChannels w ∧ isLocked x w = true ∧ name_of x w = y.
Proof.
  unfold ScrollLockToolbarItem_new.
  rewrite list_elem_of_In, in_map_iff. split.
  - intros (x & <- & [Hx Hl]%filter_In). exists x. by rewrite list_elem_of_In.
  - intros (x & Hx & Hl & <-). exists x. split; [done|].
    apply filter_In. by rewrite <- list_elem_of_In.
Qed.

Lemma filter_flip_on {A} (nm : nat → A) (f g : nat → bool) (c : nat) (cs : list nat) :
  NoDup cs → c ∈ cs → f c = false → g c = true → (∀ x, x ≠ c → g x = f x) →
  List.map nm (List.filter g cs) ≡ₚ nm c :: List.map nm (List.filter f cs).
Proof.
  intros Hnd Hin Hf Hg Hfg. induction cs as [|x cs IH]; [by apply elem_of_nil in Hin|].
  apply NoDup_cons in Hnd as [Hx Hnd]. simpl.
  destruct (decide (x = c)) as [->|Hne].
  - rewrite Hf, Hg. simpl. f_equiv.
    rewrite (filter_ext_in g f cs); [done|].
    intros a Ha%list_elem_of_In. apply Hfg. by intros ->.
  - apply elem_of_cons in Hin as [?|Hin]; [done|].
    rewrite (Hfg x Hne). destruct (f x); simpl.
    + rewrite IH by done. apply perm_swap.
    + by apply IH.
Qed.

(** X15: the scroll-lock item and a toggle of a channel of the registry.
    If the client has called [dispose()] on the channel, the toggle fires the
    channel's own event only: the manager's lock event is not fired and the
    item hears nothing.  Otherwise the toggle ends by firing the manager's
    lock event for the channel, so the item's handler runs on the state the
    toggle leaves.  If the item's list holds the names of the locked channels
    of the registry, the handler does not warn and the list again holds them;
    and if the list is, up to order, the one the constructor would build, it
    is so again afterwards. *)
Theorem X15_lock_item_follows_toggle (D : list ref) (w : World) (c : ref) (l : list string) :
  reachable_client D w → c ∈ getChannels w →
  let w' := toggleLocked c w in
  let l' := (item_onLockChange c l w').1 in
  (c ∈ D → fired w' = fired w ++ [LockedChange c (negb (isLocked c w))]) ∧
  (c ∉ D →
     fired w' = fired w ++ [LockedChange c (negb (isLocked c w)); ChannelLocked c] ∧
     (ScrollLockToolbarItem_new w ⊆ l →
        (item_onLockChange c l w').2 = w' ∧ ScrollLockToolbarItem_new w' ⊆ l') ∧
     (l ≡ₚ ScrollLockToolbarItem_new w → l' ≡ₚ ScrollLockToolbarItem_new w')).
Proof.
  intros Hw%reachable_client_inv Hc w' l'.
  destruct (client_allocated _ _ _ Hw Hc) as [o Ho].
  assert (Hlo : isLocked c w = locked o) by (unfold isLocked; by rewrite Ho).
  assert (Hfired : fired w' = fired w ++ LockedChange c (negb (isLocked c w)) ::
                     if decide (c ∈ D) then [] else [ChannelLocked c]).
  { subst w'. unfold toggleLocked. rewrite Ho, Hlo.
    destruct (client_emitters _ _ _ _ Hw Ho) as [(_ & HD & _ & ->)|(HD & _ & ->)];
      cbn [foldl onLockChange].
    - rewrite decide_False by done. unfold emit. cbn [fired]. by rewrite <- app_assoc.
    - rewrite decide_True by (destruct (decide (c ∈ D)); [done|exfalso; by apply HD]).
      done. }
  split.
  { intros HD. rewrite Hfired. by rewrite decide_True. }
  intros HD. split; [rewrite Hfired; by rewrite decide_False|].
  destruct (toggleLocked_eq c w o Ho) as [evs Heq]. fold w' in Heq.
  assert (Hch : getChannels w' = getChannels w) by by rewrite Heq.
  assert (Hnm : ∀ x, name_of x w' = name_of x w).
  { intros x. unfold name_of. rewrite Heq. simpl.
    destruct (decide (x = c)) as [->|Hne]; [|by rewrite list_lookup_alter_ne].
    by rewrite list_lookup_alter_eq, Ho. }
  assert (Hlk : ∀ x, x ≠ c → isLocked x w' = isLocked x w).
  { intros x Hx. unfold isLocked. rewrite Heq. simpl. by rewrite list_lookup_alter_ne. }
  assert (Hlc : isLocked c w' = negb (locked o)).
  { unfold isLocked. rewrite Heq. simpl. rewrite list_lookup_alter_eq, Ho. done. }
  assert (Hinj : ∀ x, x ∈ getChannels w → name_of x w = name_of c w → x = c).
  { intros x Hx Hn. pose proof (client_shown_name _ _ _ Hw Hx) as H1.
    pose proof (client_shown_name _ _ _ Hw Hc) as H2. congruence. }
  assert (Hnew : if locked o
                 then ScrollLockToolbarItem_new w ≡ₚ name_of c w :: ScrollLockToolbarItem_new w'
                 else ScrollLockToolbarItem_new w' ≡ₚ name_of c w :: ScrollLockToolbarItem_new w).
  { unfold ScrollLockToolbarItem_new. rewrite Hch.
    rewrite (map_ext _ _ Hnm).
    destruct (locked o) eqn:Hl.
    - apply (filter_flip_on (λ x, name_of x w) (λ x, isLocked x w') (λ x, isLocked x w) c);
        [by apply (NoDup_getChannels D)|done|by rewrite Hlc|by rewrite Hlo|].
      intros x Hx. by rewrite Hlk.
    - apply (filter_flip_on (λ x, name_of x w) (λ x, isLocked x w) (λ x, isLocked x w') c);
        [by apply (NoDup_getChannels D)|done|by rewrite Hlo|by rewrite Hlc|].
      apply Hlk. }
  subst l'. unfold item_onLockChange. rewrite Hlc, Hnm.
  destruct (locked o) eqn:Hl; simpl.
  - (* the channel was locked: an unlock event *)
    assert (name_of c w ∈ ScrollLockToolbarItem_new w) as Hin.
    { rewrite Hnew. apply list_elem_of_here. }
    split.
    + intros Hsub.
      destruct (indexOf_present l (name_of c w) (Hsub _ Hin)) as (l1 & l2 & -> & Hnin & Hidx).
      rewrite Hidx. rewrite decide_False by lia. simpl. split; [done|].
      rewrite Nat2Z.id, splice_one.
      intros y Hy. pose proof Hy as (x & Hx & Hxl & <-)%elem_of_ScrollLockToolbarItem_new.
      rewrite Hch in Hx.
      assert (x ≠ c) as Hxc by (intros ->; by rewrite Hlc in Hxl).
      assert (name_of x w' ≠ name_of c w) as Hne by (rewrite Hnm; intros ?%Hinj; done).
      assert (name_of x w' ∈ l1 ++ name_of c w :: l2) as Hyl.
      { apply Hsub. rewrite Hnew. by apply list_elem_of_further. }
      rewrite elem_of_app, elem_of_cons in Hyl. rewrite elem_of_app.
      destruct Hyl as [?|[?|?]]; [by left|done|by right].
    + intros Hp.
      assert (name_of c w ∈ l) as Hinl by (by rewrite Hp).
      destruct (indexOf_present l (name_of c w) Hinl) as (l1 & l2 & -> & Hnin & Hidx).
      rewrite Hidx. rewrite decide_False by lia. simpl.
      rewrite Nat2Z.id, splice_one.
      symmetry. eapply Permutation_cons_app_inv. rewrite <- Hnew. by symmetry.
  - (* the channel was not locked: a lock event *)
    unfold JSArray.push. split.
    + intros Hsub. split; [done|]. intros y Hy. rewrite Hnew in Hy.
      apply elem_of_cons in Hy as [->|Hy]; apply elem_of_app.
      * right. apply list_elem_of_here.
      * left. by apply Hsub.
    + intros ->. rewrite Hnew. symmetry. apply Permutation_cons_append.
Qed.

Lemma X15_lock_item_follows_toggle_witness :
  let w := call (GetChannel "two") (call (GetChannel "one") (init 1000 None "")) in
  (item_onLockChange 1 (ScrollLockToolbarItem_new w) (toggleLocked 1 w)).1 ≡ₚ ["two"].
Proof.
  intros w.
  assert (Hr : reachable_client [] w)
    by (repeat apply reachable_client_call; apply reachable_client_init).
  assert (Hc : 1 ∈ getChannels w) by (apply list_elem_of_further, list_elem_of_here).
  pose proof (proj2 (X15_lock_item_follows_toggle [] w 1 (ScrollLockToolbarItem_new w) Hr Hc)
                (not_elem_of_nil 1)) as (_ & _ & H).
  exact (H (reflexivity _)).
Defined.

(** X16: the handler of the scroll-lock item by itself.  It never touches an
    entry of another name.  A lock event appends the name; an unlock event
    for a listed name takes out its first occurrence only and does not warn;
    an unlock event for a name that is not listed leaves the list as it is
    and writes the one warning. *)
Theorem X16_lock_item_handler (w : World) (channel : ref) (l : list string) :
  let n := name_of channel w in
  let l' := (item_onLockChange channel l w).1 in
  let w' := (item_onLockChange channel l w).2 in
  List.filter (λ x, bool_decide (x ≠ n)) l' = List.filter (λ x, bool_decide (x ≠ n)) l ∧
  (isLocked channel w = true → l' = l ++ [n] ∧ w' = w) ∧
  (isLocked channel w = false → n ∈ l →
     w' = w ∧ ∃ l1 l2, l = l1 ++ n :: l2 ∧ (n ∉ l1) ∧ l' = l1 ++ l2) ∧
  (isLocked channel w = false → n ∉ l →
     l' = l ∧
     w' = console_warn ("Could not unlock channel '" +:+ n +:+ "'. It was not locked.") w).
Proof.
  intros n l' w'. subst l' w'. unfold item_onLockChange. fold n.
  destruct (isLocked channel w); simpl.
  - split_and!; [|done|done|done].
    unfold JSArray.push. rewrite List.filter_app. simpl.
    rewrite bool_decide_false by (intros H; by apply H). by rewrite app_nil_r.
  - destruct (decide (n ∈ l)) as [Hin|Hnin].
    + destruct (indexOf_present l n Hin) as (l1 & l2 & -> & Hn1 & Hidx).
      rewrite Hidx. rewrite decide_False by lia. simpl.
      rewrite Nat2Z.id, splice_one.
      split_and!; [|done| |done].
      * rewrite !List.filter_app. simpl.
        by rewrite bool_decide_false by (intros H; by apply H).
      * intros _ _. split; [done|]. by exists l1, l2.
    + rewrite indexOf_absent by done. simpl. split_and!; done.
Qed.

Lemma X16_lock_item_handler_witness :
  let w := call (GetChannel "one") (init 1000 None "") in
  (item_onLockChange 0 [] w).2 =
  console_warn "Could not unlock channel 'one'. It was not locked." w.
Proof.
  intros w.
  pose proof (proj2 (proj2 (proj2 (X16_lock_item_handler w 0 []))) eq_refl) as H.
  exact (proj2 (H (not_elem_of_nil _))).
Defined.
